(** * Voice-to-text transcriber: the transcript assembly engine

    A shallow embedding of the transcript logic of the repository's
    [App.tsx] variants: the overlap merge [appendVerbatim] with the
    JavaScript string primitives it is written with, the save / finalize /
    stop handlers of the variants, and the loudness gate of the audio
    callback. *)

From Stdlib Require Import String Ascii ZArith NArith Lia.
From Stdlib Require Import Floats.PrimFloat Numbers.Cyclic.Int63.Uint63.
From stdpp Require Import base tactics numbers list.

Set Default Proof Using "Type*".

(** ** JavaScript strings

    A JavaScript string is a sequence of UTF-16 code units; a code unit is
    a number below 65536, kept here as an [N]. *)

Abbreviation jsstring := (list N).

(** A string literal of the development, as code units. *)
Definition u16 (s : string) : jsstring :=
  map N_of_ascii (list_ascii_of_string s).

Module JS.

(** The characters matched by [\s] and removed by [String.prototype.trim]:
    the WhiteSpace and LineTerminator code points of ECMAScript. *)
Definition isWhiteSpace (c : N) : bool :=
  ((9 <=? c) && (c <=? 13) || (c =? 32) || (c =? 160) || (c =? 5760)
   || (8192 <=? c) && (c <=? 8202) || (c =? 8232) || (c =? 8233)
   || (c =? 8239) || (c =? 8287) || (c =? 12288) || (c =? 65279))%N.

(** The class [[\x00-\x7F]]. *)
Definition isAscii (c : N) : bool := (c <=? 127)%N.

(** [s.length === 0], the falsiness test [!s] on a string. *)
Definition isEmpty (s : jsstring) : bool :=
  match s with [] => true | _ => false end.

Fixpoint trimStart (s : jsstring) : jsstring :=
  match s with
  | [] => []
  | c :: r => if isWhiteSpace c then trimStart r else s
  end.

Fixpoint trimEnd (s : jsstring) : jsstring :=
  match s with
  | [] => []
  | c :: r =>
      match trimEnd r with
      | [] => if isWhiteSpace c then [] else [c]
      | r' => c :: r'
      end
  end.

(** [s.trim()] *)
Definition trim (s : jsstring) : jsstring := trimEnd (trimStart s).

(** [s.replace(/[^\x00-\x7F]/g, "")]: without the [u] flag the pattern is
    matched against single code units. *)
Definition replaceNonAscii (s : jsstring) : jsstring :=
  filter (λ c, isAscii c = true) s.

(** [s.split(/\s+/)]: the pieces between maximal runs of white space. The
    result is never empty: the empty string gives one empty piece, and a
    leading or trailing run gives an empty first or last piece. *)
Fixpoint split (s : jsstring) : list jsstring :=
  match s with
  | [] => [[]]
  | c :: r =>
      if isWhiteSpace c then
        match r with
        | d :: _ => if isWhiteSpace d then split r else [] :: split r
        | [] => [] :: split r
        end
      else
        match split r with
        | t :: ts => (c :: t) :: ts
        | [] => [[c]]
        end
  end.

(** [ws.join(" ")] *)
Fixpoint join (ws : list jsstring) : jsstring :=
  match ws with
  | [] => []
  | [w] => w
  | w :: rest => w ++ 32%N :: join rest
  end.

(** The relative index of [Array.prototype.slice]: a negative index counts
    from the end, and the result is clamped to [0 .. len]. *)
Definition relIndex (len : nat) (k : Z) : nat :=
  if (k <? 0)%Z then Z.to_nat (Z.max (Z.of_nat len + k) 0)
  else Z.to_nat (Z.min k (Z.of_nat len)).

(** [l.slice(start)] *)
Definition slice1 {A} (l : list A) (start : Z) : list A :=
  drop (relIndex (length l) start) l.

(** [l.slice(start, stop)] *)
Definition slice2 {A} (l : list A) (start stop : Z) : list A :=
  let from := relIndex (length l) start in
  let to := relIndex (length l) stop in
  take (to - from) (drop from l).

(** The Unicode case tables are not part of the program. On a string of
    ASCII code units [toLowerCase] maps [A-Z] to [a-z] and nothing else;
    what it does to a string with a code unit above 127 is left to an
    arbitrary function. *)
Class UnicodeCase := unicodeLower : jsstring → jsstring.

Definition lowerUnit (c : N) : N :=
  if ((65 <=? c) && (c <=? 90))%N then (c + 32)%N else c.

(** [s.toLowerCase()] *)
Definition toLowerCase `{UnicodeCase} (s : jsstring) : jsstring :=
  if forallb isAscii s then map lowerUnit s else unicodeLower s.

(** An instance to evaluate the definitions with. It is reached on text
    with a code unit above 127 only, which it leaves as it is. *)
Definition plainCase : UnicodeCase := λ s, s.

(** [toLowerCase] works on each side of a space on its own. The function of
    the runtime does: the one rule of the default case conversion that looks
    at the neighbours of a character (final sigma) does not look across a
    space, and a space cannot split a surrogate pair. *)
Definition lowersAcrossSpaces `{UnicodeCase} : Prop :=
  ∀ a b : jsstring,
    toLowerCase (a ++ 32%N :: b) = toLowerCase a ++ 32%N :: toLowerCase b.

(** An instance that lowers the ASCII letters of any text, unit by unit. *)
Definition unitCase : UnicodeCase := map lowerUnit.

(** *** Predicates on strings, for the statements *)

Definition startsWithSpace (s : jsstring) : bool :=
  match s with c :: _ => isWhiteSpace c | [] => false end.

Definition endsWithSpace (s : jsstring) : bool :=
  match last s with Some c => isWhiteSpace c | None => false end.

(** No white space at either end. *)
Definition trimmed (s : jsstring) : Prop :=
  startsWithSpace s = false ∧ endsWithSpace s = false.

(** A word: at least one code unit and no white space. *)
Definition wordlike (w : jsstring) : Prop :=
  0 < length w ∧ Forall (λ c, isWhiteSpace c = false) w.

Definition asciiOnly (s : jsstring) : Prop :=
  Forall (λ c, isAscii c = true) s.

End JS.

(** ** The overlap merge (the master-log variant) *)

Module Verbatim.
Import JS.

(** [s.split(/\s+/).filter(w => w.length > 0)] *)
Definition wordsOf (s : jsstring) : list jsstring :=
  filter (λ w, 0 < length w) (split s).

Section Merge.
Context `{UnicodeCase}.

(** The backward scan
    [for (let i = maxOverlap; i > 0; i--) { ... overlapIndex = i; break; }]
    started at [i]; [-1] when no candidate matches. *)
Fixpoint scanOverlap (masterWords incomingWords : list jsstring) (i : nat) : Z :=
  match i with
  | O => (-1)%Z
  | S j =>
      let masterTail := toLowerCase (join (slice1 masterWords (- Z.of_nat i))) in
      let incomingHead := toLowerCase (join (slice2 incomingWords 0 (Z.of_nat i))) in
      if decide (masterTail = incomingHead) then Z.of_nat i
      else scanOverlap masterWords incomingWords j
  end.

Definition appendVerbatim (master incoming : jsstring) : jsstring :=
  if isEmpty incoming then master else
  let cleanedIncoming := trim (replaceNonAscii incoming) in
  if isEmpty cleanedIncoming then master else
  let masterWords := wordsOf (trim master) in
  let incomingWords := wordsOf cleanedIncoming in
  if decide (length masterWords = 0) then cleanedIncoming else
  let maxOverlap := (length masterWords `min` length incomingWords) `min` 8 in
  let overlapIndex := scanOverlap masterWords incomingWords maxOverlap in
  if decide (overlapIndex ≠ (-1)%Z) then
    let uniqueIncoming := join (slice1 incomingWords overlapIndex) in
    if isEmpty uniqueIncoming then master
    else trim (master ++ 32%N :: uniqueIncoming)
  else
    trim (master ++ 32%N :: cleanedIncoming).

(** The names the statements below use for the intermediate values of
    [appendVerbatim]: the words of the master transcript ([masterWords],
    also the word count shown while recording), the words of the cleaned
    delta, the scan's upper bound and its result. *)
Definition committed (master : jsstring) : list jsstring :=
  wordsOf (trim master).

Definition incomingWords (incoming : jsstring) : list jsstring :=
  wordsOf (trim (replaceNonAscii incoming)).

Definition maxOverlap (master incoming : jsstring) : nat :=
  (length (committed master) `min` length (incomingWords incoming)) `min` 8.

Definition overlapIndex (master incoming : jsstring) : Z :=
  scanOverlap (committed master) (incomingWords incoming)
    (maxOverlap master incoming).

(** The test of the scan at candidate length [i]. *)
Definition overlapsAt (masterWords incomingWords : list jsstring) (i : nat) : Prop :=
  toLowerCase (join (slice1 masterWords (- Z.of_nat i)))
  = toLowerCase (join (slice2 incomingWords 0 (Z.of_nat i))).

#[global] Instance overlapsAt_dec mw iw i : Decision (overlapsAt mw iw i).
Proof. unfold overlapsAt. apply _. Defined.

End Merge.
End Verbatim.

(** ** Application state ([types.ts]) and the events of the remote session *)

Module Types.

Inductive Status := idle | connecting | listening | error.

Record IdeaSnippet := {
  id : jsstring;
  text : jsstring;
  timestamp : N;
}.

Record TranscriptionState := {
  currentText : jsstring;
  history : list IdeaSnippet;
  isRecording : bool;
  status : Status;
}.

(** What [crypto.randomUUID()] and [new Date()] give at one call. *)
Record Clock := {
  randomUUID : jsstring;
  now : N;
}.

(** [{ id: crypto.randomUUID(), text: t, timestamp: new Date() }] *)
Definition newSnippet (clock : Clock) (t : jsstring) : IdeaSnippet :=
  {| id := randomUUID clock; text := t; timestamp := now clock |}.

(** [{ ...prev, history: [...prev.history, snippet], currentText: '' }] *)
Definition pushSnippet (snippet : IdeaSnippet) (prev : TranscriptionState) :=
  {| currentText := []; history := history prev ++ [snippet];
     isRecording := isRecording prev; status := status prev |}.

(** [{ ...prev, currentText: t }] *)
Definition withCurrentText (t : jsstring) (prev : TranscriptionState) :=
  {| currentText := t; history := history prev;
     isRecording := isRecording prev; status := status prev |}.

(** [{ ...prev, status: s }] *)
Definition withStatus (s : Status) (prev : TranscriptionState) :=
  {| currentText := currentText prev; history := history prev;
     isRecording := isRecording prev; status := s |}.

(** [{ ...prev, isRecording: false, status: 'idle' }] *)
Definition stopped (prev : TranscriptionState) :=
  {| currentText := currentText prev; history := history prev;
     isRecording := false; status := idle |}.

Definition initialState : TranscriptionState :=
  {| currentText := []; history := []; isRecording := false; status := idle |}.

End Types.

(** The messages of the live session, as far as the handlers read them:
    [msg.serverContent?.inputTranscription?.text] and
    [msg.serverContent?.turnComplete]. An absent property is [None]. *)
Module Live.

Record Transcription := { text : option jsstring }.

Record ServerContent := {
  inputTranscription : option Transcription;
  turnComplete : bool;
}.

Record ServerMessage := { serverContent : option ServerContent }.

(** [msg.serverContent?.inputTranscription?.text] *)
Definition transcriptionText (msg : ServerMessage) : option jsstring :=
  match serverContent msg with
  | Some sc =>
      match inputTranscription sc with
      | Some t => text t
      | None => None
      end
  | None => None
  end.

(** [msg.serverContent?.turnComplete], as a condition *)
Definition isTurnComplete (msg : ServerMessage) : bool :=
  match serverContent msg with
  | Some sc => turnComplete sc
  | None => false
  end.

(** A string used as a condition: defined and not empty. *)
Definition truthy (v : option jsstring) : bool :=
  match v with Some (_ :: _) => true | _ => false end.

(** [s += v]: an undefined operand is appended as the text "undefined". *)
Definition concat (s : jsstring) (v : option jsstring) : jsstring :=
  s ++ match v with Some t => t | None => u16 "undefined" end.

Definition delta (t : jsstring) : ServerMessage :=
  {| serverContent :=
       Some {| inputTranscription := Some {| text := Some t |};
               turnComplete := false |} |}.

Definition turnCompleteSignal : ServerMessage :=
  {| serverContent :=
       Some {| inputTranscription := None; turnComplete := true |} |}.

End Live.

(** ** The master-log variant: handlers around [appendVerbatim] *)

Module VerbatimApp.
Import JS Verbatim Types.

Record App := {
  state : TranscriptionState;
  masterTranscriptRef : jsstring;
  activeSessionRef : bool;
  streamRef : bool;
  audioContextRef : bool;
  volume : float;
}.

Definition setState (f : TranscriptionState → TranscriptionState) (app : App) : App :=
  {| state := f (state app); masterTranscriptRef := masterTranscriptRef app;
     activeSessionRef := activeSessionRef app; streamRef := streamRef app;
     audioContextRef := audioContextRef app; volume := volume app |}.

Definition setMaster (t : jsstring) (app : App) : App :=
  {| state := state app; masterTranscriptRef := t;
     activeSessionRef := activeSessionRef app; streamRef := streamRef app;
     audioContextRef := audioContextRef app; volume := volume app |}.

Definition initialApp : App :=
  {| state := initialState; masterTranscriptRef := [];
     activeSessionRef := false; streamRef := false;
     audioContextRef := false; volume := 0%float |}.

(** Drops the session, stops the tracks, closes the audio context and
    resets the level meter. *)
Definition cleanup (app : App) : App :=
  {| state := state app; masterTranscriptRef := masterTranscriptRef app;
     activeSessionRef := false; streamRef := false;
     audioContextRef := false; volume := 0%float |}.

Definition saveToHistory (clock : Clock) (app : App) : App :=
  let finalTranscript := trim (masterTranscriptRef app) in
  let app1 :=
    if decide (0 < length finalTranscript)
    then setState (pushSnippet (newSnippet clock finalTranscript)) app
    else app in
  setState (withCurrentText []) (setMaster [] app1).

Definition stopSession (clock : Clock) (app : App) : App :=
  cleanup (setState stopped (saveToHistory clock app)).

Section Handlers.
Context `{UnicodeCase}.

Definition onmessage (app : App) (msg : Live.ServerMessage) : App :=
  match Live.transcriptionText msg with
  | Some (c :: r) =>
      let incoming := c :: r in
      let updated := appendVerbatim (masterTranscriptRef app) incoming in
      if decide (updated ≠ masterTranscriptRef app)
      then setState (withCurrentText updated) (setMaster updated app)
      else app
  | _ => app
  end.

End Handlers.

Definition onerror (clock : Clock) (app : App) : App :=
  stopSession clock (setState (withStatus error) app).

Definition onclose (app : App) : App := setState stopped app.

End VerbatimApp.

(** ** The per-turn variant with [finalizeTurn] (floor of two characters) *)

Module FinalizeApp.
Import JS Types.

Record App := {
  state : TranscriptionState;
  currentTranscriptionRef : jsstring;
  sessionPromiseRef : bool;
  streamRef : bool;
  audioContextRef : bool;
  volume : float;
}.

Definition setState (f : TranscriptionState → TranscriptionState) (app : App) : App :=
  {| state := f (state app);
     currentTranscriptionRef := currentTranscriptionRef app;
     sessionPromiseRef := sessionPromiseRef app; streamRef := streamRef app;
     audioContextRef := audioContextRef app; volume := volume app |}.

Definition setBuffer (t : jsstring) (app : App) : App :=
  {| state := state app; currentTranscriptionRef := t;
     sessionPromiseRef := sessionPromiseRef app; streamRef := streamRef app;
     audioContextRef := audioContextRef app; volume := volume app |}.

Definition cleanup (app : App) : App :=
  {| state := state app;
     currentTranscriptionRef := currentTranscriptionRef app;
     sessionPromiseRef := false; streamRef := false;
     audioContextRef := false; volume := 0%float |}.

Definition finalizeTurn (clock : Clock) (app : App) : App :=
  let text := trim (currentTranscriptionRef app) in
  let app1 :=
    if decide (2 < length text)
    then setState (pushSnippet (newSnippet clock text)) app
    else app in
  setState (withCurrentText []) (setBuffer [] app1).

Definition stopSession (clock : Clock) (app : App) : App :=
  cleanup (setState stopped (finalizeTurn clock app)).

Definition onmessage (clock : Clock) (app : App) (msg : Live.ServerMessage) : App :=
  let textDelta := Live.transcriptionText msg in
  let app1 :=
    if Live.truthy textDelta then
      let buffer := Live.concat (currentTranscriptionRef app) textDelta in
      setState (withCurrentText buffer) (setBuffer buffer app)
    else app in
  if Live.isTurnComplete msg then finalizeTurn clock app1 else app1.

Definition onerror (clock : Clock) (app : App) : App :=
  stopSession clock (setState (withStatus error) app).

End FinalizeApp.

(** ** The loudness-gated per-turn variant with [saveSnippet]
       (floor of three characters) *)

Module GatedApp.
Import JS Types.

(** [0.008]: the double that the literal denotes. *)
Definition SILENCE_THRESHOLD : float := 0x1.0624dd2f1a9fcp-7%float.

(** [{ media: { data, mimeType } }], one call of [sendRealtimeInput]. *)
Record Media := {
  data : jsstring;
  mimeType : string;
}.

Record App := {
  state : TranscriptionState;
  activeTranscriptionRef : jsstring;
  sessionRef : bool;
  streamRef : bool;
  audioContextRef : bool;
  visualizerLevel : float;
  sent : list Media;
}.

Definition setState (f : TranscriptionState → TranscriptionState) (app : App) : App :=
  {| state := f (state app);
     activeTranscriptionRef := activeTranscriptionRef app;
     sessionRef := sessionRef app; streamRef := streamRef app;
     audioContextRef := audioContextRef app;
     visualizerLevel := visualizerLevel app; sent := sent app |}.

Definition setBuffer (t : jsstring) (app : App) : App :=
  {| state := state app; activeTranscriptionRef := t;
     sessionRef := sessionRef app; streamRef := streamRef app;
     audioContextRef := audioContextRef app;
     visualizerLevel := visualizerLevel app; sent := sent app |}.

Definition setVisualizerLevel (level : float) (app : App) : App :=
  {| state := state app;
     activeTranscriptionRef := activeTranscriptionRef app;
     sessionRef := sessionRef app; streamRef := streamRef app;
     audioContextRef := audioContextRef app;
     visualizerLevel := level; sent := sent app |}.

(** [sessionRef.current.sendRealtimeInput({ media })] *)
Definition sendRealtimeInput (media : Media) (app : App) : App :=
  {| state := state app;
     activeTranscriptionRef := activeTranscriptionRef app;
     sessionRef := sessionRef app; streamRef := streamRef app;
     audioContextRef := audioContextRef app;
     visualizerLevel := visualizerLevel app; sent := sent app ++ [media] |}.

Definition cleanup (app : App) : App :=
  {| state := state app;
     activeTranscriptionRef := activeTranscriptionRef app;
     sessionRef := false; streamRef := false; audioContextRef := false;
     visualizerLevel := 0%float; sent := sent app |}.

Definition saveSnippet (clock : Clock) (app : App) : App :=
  let text := trim (activeTranscriptionRef app) in
  let app1 :=
    if decide (3 < length text)
    then setState (pushSnippet (newSnippet clock text)) app
    else app in
  setState (withCurrentText []) (setBuffer [] app1).

Definition stopSession (clock : Clock) (app : App) : App :=
  cleanup (setState stopped (saveSnippet clock app)).

Definition onmessage (clock : Clock) (app : App) (msg : Live.ServerMessage) : App :=
  let text := Live.transcriptionText msg in
  let app1 :=
    if Live.truthy text then
      let buffer := Live.concat (activeTranscriptionRef app) text in
      setState (withCurrentText buffer) (setBuffer buffer app)
    else app in
  if Live.isTurnComplete msg then saveSnippet clock app1 else app1.

Definition onerror (clock : Clock) (app : App) : App :=
  stopSession clock (setState (withStatus error) app).

(** The loudness of a frame. The samples of the [Float32Array] are read as
    doubles; [inputData.length] is an integer below [2^53] and converts
    exactly. *)
Definition sumOfSquares (inputData : list float) : float :=
  fold_left (λ sum x, (sum + x * x)%float) inputData 0%float.

Definition lengthOf (inputData : list float) : float :=
  PrimFloat.of_uint63 (Uint63.of_Z (Z.of_nat (length inputData))).

Definition rmsOf (inputData : list float) : float :=
  PrimFloat.sqrt (sumOfSquares inputData / lengthOf inputData)%float.

Section Audio.
(** [encodePCM] of [utils/audioUtils], which is not among the sources. *)
Variable encodePCM : list float → jsstring.

Definition mediaOf (inputData : list float) : Media :=
  {| data := encodePCM inputData; mimeType := "audio/pcm;rate=16000" |}.

Definition onaudioprocess (app : App) (inputData : list float) : App :=
  if negb (sessionRef app) then app else
  let rms := rmsOf inputData in
  let app1 := setVisualizerLevel rms app in
  if (SILENCE_THRESHOLD <? rms)%float
  then sendRealtimeInput (mediaOf inputData) app1
  else app1.

End Audio.

End GatedApp.

(** ** The per-turn variant with the turn handled inside [onmessage] *)

Module TurnApp.
Import JS Types.

Record App := {
  state : TranscriptionState;
  currentTurnText : jsstring;
  lastFinalizedText : jsstring;
}.

Definition setState (f : TranscriptionState → TranscriptionState) (app : App) : App :=
  {| state := f (state app); currentTurnText := currentTurnText app;
     lastFinalizedText := lastFinalizedText app |}.

Definition setTurnText (t : jsstring) (app : App) : App :=
  {| state := state app; currentTurnText := t;
     lastFinalizedText := lastFinalizedText app |}.

Definition onmessage (clock : Clock) (app : App) (message : Live.ServerMessage) : App :=
  let app1 :=
    match Live.serverContent message with
    | Some {| Live.inputTranscription := Some transcription |} =>
        let textDelta := Live.text transcription in
        let buffer := Live.concat (currentTurnText app) textDelta in
        setState (withCurrentText buffer) (setTurnText buffer app)
    | _ => app
    end in
  if Live.isTurnComplete message then
    if negb (isEmpty (trim (currentTurnText app1))) then
      let textToSave := trim (currentTurnText app1) in
      setTurnText [] (setState (pushSnippet (newSnippet clock textToSave)) app1)
    else app1
  else app1.

End TurnApp.

(** ** [App.tsx]: one buffer for the session, the turn signal is not used *)

Module BufferApp.
Import JS Types.

Record App := {
  state : TranscriptionState;
  transcriptionBuffer : jsstring;
}.

Definition onmessage (app : App) (message : Live.ServerMessage) : App :=
  let app1 :=
    match Live.serverContent message with
    | Some {| Live.inputTranscription := Some transcription |} =>
        let text := Live.text transcription in
        let buffer := Live.concat (transcriptionBuffer app) text in
        {| state := withCurrentText buffer (state app);
           transcriptionBuffer := buffer |}
    | _ => app
    end in
  if Live.isTurnComplete message then app1 else app1.

End BufferApp.

(** ** Sample states *)

Module Samples.
Import Types.

Definition clock0 : Clock := {| randomUUID := u16 "id-0"; now := 0%N |}.

Definition recording (t : jsstring) : TranscriptionState :=
  {| currentText := t; history := []; isRecording := true;
     status := listening |}.

(** A session of the [finalizeTurn] variant that has heard ["ok"]. *)
Definition finalizeOk : FinalizeApp.App :=
  {| FinalizeApp.state := recording (u16 "ok");
     FinalizeApp.currentTranscriptionRef := u16 "ok";
     FinalizeApp.sessionPromiseRef := true; FinalizeApp.streamRef := true;
     FinalizeApp.audioContextRef := true; FinalizeApp.volume := 0%float |}.

(** A session of the [saveSnippet] variant that has heard ["abc"]. *)
Definition gatedAbc : GatedApp.App :=
  {| GatedApp.state := recording (u16 "abc");
     GatedApp.activeTranscriptionRef := u16 "abc";
     GatedApp.sessionRef := true; GatedApp.streamRef := true;
     GatedApp.audioContextRef := true; GatedApp.visualizerLevel := 0%float;
     GatedApp.sent := [] |}.

(** A session of the master-log variant that holds ["hello world"]. *)
Definition verbatimHello : VerbatimApp.App :=
  {| VerbatimApp.state := recording (u16 "hello world");
     VerbatimApp.masterTranscriptRef := u16 "hello world";
     VerbatimApp.activeSessionRef := true; VerbatimApp.streamRef := true;
     VerbatimApp.audioContextRef := true; VerbatimApp.volume := 0%float |}.

(** A session of the gated variant, with or without a session attached. *)
Definition withSession (present : bool) : GatedApp.App :=
  {| GatedApp.state := recording [];
     GatedApp.activeTranscriptionRef := [];
     GatedApp.sessionRef := present; GatedApp.streamRef := true;
     GatedApp.audioContextRef := true;
     GatedApp.visualizerLevel := 0%float; GatedApp.sent := [] |}.

End Samples.

(** ** The life of a session in the master-log variant *)

Module VerbatimSession.
Import JS Verbatim Types VerbatimApp.

(** [{ ...prev, status: 'connecting', isRecording: true, currentText: '' }] *)
Definition starting (prev : TranscriptionState) : TranscriptionState :=
  {| currentText := []; history := history prev;
     isRecording := true; status := connecting |}.

(** [{ ...prev, status: 'error', isRecording: false }] *)
Definition failed (prev : TranscriptionState) : TranscriptionState :=
  {| currentText := currentText prev; history := history prev;
     isRecording := false; status := error |}.

(** [streamRef.current = stream; audioContextRef.current = audioContext] *)
Definition acquired (app : App) : App :=
  {| state := state app; masterTranscriptRef := masterTranscriptRef app;
     activeSessionRef := activeSessionRef app; streamRef := true;
     audioContextRef := true; volume := volume app |}.

(** [startSession], by the outcome of [getUserMedia], the one awaited call
    of its [try] block: when it rejects, the [catch] sets the error status
    and cleans up. The connection is requested but not awaited. *)
Definition startSession (micGranted : bool) (app : App) : App :=
  let app1 := setMaster [] (setState starting app) in
  if micGranted then acquired app1
  else cleanup (setState failed app1).

(** [onopen] *)
Definition onopen (app : App) : App := setState (withStatus listening) app.

(** [sessionPromise.then(session => { activeSessionRef.current = session })] *)
Definition sessionResolved (app : App) : App :=
  {| state := state app; masterTranscriptRef := masterTranscriptRef app;
     activeSessionRef := true; streamRef := streamRef app;
     audioContextRef := audioContextRef app; volume := volume app |}.

(** The word counter of the effect on [state.currentText]:
    [state.currentText.trim().split(/\s+/).filter(w => w.length > 0).length] *)
Definition wordCount (st : TranscriptionState) : nat :=
  length (wordsOf (trim (currentText st))).

(** [{ ...prev, history: [] }] *)
Definition withoutHistory (prev : TranscriptionState) : TranscriptionState :=
  {| currentText := currentText prev; history := [];
     isRecording := isRecording prev; status := status prev |}.

(** The click on the purge button:
    [confirm('Purge history?') && setState(prev => ({ ...prev, history: [] }))],
    by the answer to the question. *)
Definition purgeHistory (confirmed : bool) (app : App) : App :=
  if confirmed then setState withoutHistory app else app.

(** What can happen to the component, one handler each. *)
Inductive Event :=
  | Start (micGranted : bool)
  | Opened
  | Resolved
  | Message (msg : Live.ServerMessage)
  | Failed (clock : Clock)
  | Closed
  | Stop (clock : Clock)
  | Purge (confirmed : bool).

Section Run.
Context `{UnicodeCase}.

Definition handle (app : App) (e : Event) : App :=
  match e with
  | Start micGranted => startSession micGranted app
  | Opened => onopen app
  | Resolved => sessionResolved app
  | Message msg => onmessage app msg
  | Failed clock => onerror clock app
  | Closed => onclose app
  | Stop clock => stopSession clock app
  | Purge confirmed => purgeHistory confirmed app
  end.

Definition run (events : list Event) (app : App) : App :=
  fold_left handle events app.

End Run.

(** What holds of the component after any events (proved below): the live
    text is the master transcript, which is ASCII and trimmed; every saved
    snippet has a text that is not empty, trimmed and ASCII; and an idle or
    failed component is not recording. *)
Definition cleanSnippet (snippet : IdeaSnippet) : Prop :=
  text snippet ≠ [] ∧ trimmed (text snippet) ∧ asciiOnly (text snippet).

Definition consistent (app : App) : Prop :=
  currentText (state app) = masterTranscriptRef app
  ∧ asciiOnly (masterTranscriptRef app)
  ∧ trimmed (masterTranscriptRef app)
  ∧ Forall cleanSnippet (history (state app))
  ∧ match status (state app) with
    | idle | error => isRecording (state app) = false
    | _ => True
    end.




End VerbatimSession.

(** ** The variant with a permanent transcript and a turn accumulator *)

Module PermanentApp.
Import JS Types.

(** [text.replace(/[^\x00-\x7F]/g, "")] *)
Definition stripNonRoman (text : jsstring) : jsstring := replaceNonAscii text.

Record App := {
  state : TranscriptionState;
  permanentTranscriptRef : jsstring;
  turnDeltaRef : jsstring;
  activeSessionRef : bool;
  streamRef : bool;
  audioContextRef : bool;
  volume : float;
}.

Definition setState (f : TranscriptionState → TranscriptionState) (app : App) : App :=
  {| state := f (state app);
     permanentTranscriptRef := permanentTranscriptRef app;
     turnDeltaRef := turnDeltaRef app;
     activeSessionRef := activeSessionRef app; streamRef := streamRef app;
     audioContextRef := audioContextRef app; volume := volume app |}.

Definition setRefs (permanent turnDelta : jsstring) (app : App) : App :=
  {| state := state app;
     permanentTranscriptRef := permanent; turnDeltaRef := turnDelta;
     activeSessionRef := activeSessionRef app; streamRef := streamRef app;
     audioContextRef := audioContextRef app; volume := volume app |}.

Definition cleanup (app : App) : App :=
  {| state := state app;
     permanentTranscriptRef := permanentTranscriptRef app;
     turnDeltaRef := turnDeltaRef app;
     activeSessionRef := false; streamRef := false;
     audioContextRef := false; volume := 0%float |}.

(** [(permanentTranscriptRef.current + " " + turnDeltaRef.current).trim()],
    the expression of [onmessage] and of [saveToHistory]. *)
Definition fullText (app : App) : jsstring :=
  trim (permanentTranscriptRef app ++ 32%N :: turnDeltaRef app).

Definition saveToHistory (clock : Clock) (app : App) : App :=
  let finalTranscript := fullText app in
  let app1 :=
    if decide (0 < length finalTranscript)
    then setState (pushSnippet (newSnippet clock finalTranscript)) app
    else app in
  setState (withCurrentText []) (setRefs [] [] app1).

Definition stopSession (clock : Clock) (app : App) : App :=
  cleanup (setState stopped (saveToHistory clock app)).

Definition onmessage (app : App) (msg : Live.ServerMessage) : App :=
  let app1 :=
    match Live.serverContent msg with
    | Some {| Live.inputTranscription := Some transcription |} =>
        let delta := Live.text transcription in
        let app' :=
          setRefs (permanentTranscriptRef app)
            (Live.concat (turnDeltaRef app) delta) app in
        setState (withCurrentText (stripNonRoman (fullText app'))) app'
    | _ => app
    end in
  if Live.isTurnComplete msg
  then setRefs (fullText app1) [] app1
  else app1.

End PermanentApp.

(** ** Stopping in the variant that handles the turn inside [onmessage] *)

Module TurnSession.
Import JS Types.

(** The component: the transcript part and the handles that [cleanup]
    releases. *)
Record Session := {
  app : TurnApp.App;
  sessionRef : bool;
  streamRef : bool;
  audioContextRef : bool;
  volumeLevel : float;
}.

Definition onmessage (clock : Clock) (s : Session) (message : Live.ServerMessage) : Session :=
  {| app := TurnApp.onmessage clock (app s) message;
     sessionRef := sessionRef s; streamRef := streamRef s;
     audioContextRef := audioContextRef s; volumeLevel := volumeLevel s |}.

Definition stopSession (clock : Clock) (s : Session) : Session :=
  let buffer := TurnApp.currentTurnText (app s) in
  let prev := TurnApp.state (app s) in
  let next :=
    if negb (isEmpty (trim buffer)) then
      {| currentText := [];
         history := history prev ++ [newSnippet clock (trim buffer)];
         isRecording := false; status := idle |}
    else
      {| currentText := []; history := history prev;
         isRecording := false; status := idle |} in
  {| app := {| TurnApp.state := next; TurnApp.currentTurnText := [];
               TurnApp.lastFinalizedText := [] |};
     sessionRef := false; streamRef := false; audioContextRef := false;
     volumeLevel := 0%float |}.

End TurnSession.

(** ** Stopping in [App.tsx] *)

Module ListenSession.
Import JS Types.

Record Session := {
  app : BufferApp.App;
  sessionRef : bool;
  streamRef : bool;
  audioContextRef : bool;
}.

Definition onmessage (s : Session) (message : Live.ServerMessage) : Session :=
  {| app := BufferApp.onmessage (app s) message;
     sessionRef := sessionRef s; streamRef := streamRef s;
     audioContextRef := audioContextRef s |}.

(** The buffer is emptied only on the branch that saves it. *)
Definition stopListening (clock : Clock) (s : Session) : Session :=
  let buffer := BufferApp.transcriptionBuffer (app s) in
  let prev := BufferApp.state (app s) in
  let app' :=
    if negb (isEmpty (trim buffer)) then
      {| BufferApp.state :=
           {| currentText := [];
              history := history prev ++ [newSnippet clock (trim buffer)];
              isRecording := false; status := idle |};
         BufferApp.transcriptionBuffer := [] |}
    else
      {| BufferApp.state :=
           {| currentText := []; history := history prev;
              isRecording := false; status := idle |};
         BufferApp.transcriptionBuffer := buffer |} in
  {| app := app'; sessionRef := false; streamRef := false;
     audioContextRef := false |}.

(** [{ ...prev, status: 'connecting', isRecording: true }] *)
Definition connectingState (prev : TranscriptionState) : TranscriptionState :=
  {| currentText := currentText prev; history := history prev;
     isRecording := true; status := connecting |}.

(** [{ ...prev, status: 'error', isRecording: false }] *)
Definition errorState (prev : TranscriptionState) : TranscriptionState :=
  {| currentText := currentText prev; history := history prev;
     isRecording := false; status := error |}.

Definition withState (f : TranscriptionState → TranscriptionState) (s : Session) : Session :=
  {| app := {| BufferApp.state := f (BufferApp.state (app s));
               BufferApp.transcriptionBuffer :=
                 BufferApp.transcriptionBuffer (app s) |};
     sessionRef := sessionRef s; streamRef := streamRef s;
     audioContextRef := audioContextRef s |}.

(** [startListening], by the outcome of its two awaited calls,
    [getUserMedia] and the connection. The [catch] sets the error status
    and releases nothing; neither the buffer nor the live text is reset. *)
Definition startListening (micGranted connected : bool) (s : Session) : Session :=
  let s1 := withState connectingState s in
  if negb micGranted then withState errorState s1 else
  let s2 :=
    {| app := app s1; sessionRef := sessionRef s1; streamRef := true;
       audioContextRef := true |} in
  if connected then
    {| app := app s2; sessionRef := true; streamRef := streamRef s2;
       audioContextRef := audioContextRef s2 |}
  else withState errorState s2.

End ListenSession.


(** * Facts about the string primitives *)

Module JSFacts.
Import JS Verbatim.

(** The primitives on small inputs. *)
Example split_inner_runs : split (u16 "a  b c") = [u16 "a"; u16 "b"; u16 "c"].
Proof. reflexivity. Qed.

Example split_outer_runs : split (u16 " a b ") = [[]; u16 "a"; u16 "b"; []].
Proof. reflexivity. Qed.

Example split_empty : split [] = [[]] ∧ wordsOf [] = [].
Proof. done. Qed.

Example trim_both_ends : trim (u16 "  a b  ") = u16 "a b".
Proof. reflexivity. Qed.

Example slice_from_end : slice1 [1; 2; 3; 4] (-2) = [3; 4].
Proof. reflexivity. Qed.

Example slice_head : slice2 [1; 2; 3; 4] 0 3 = [1; 2; 3].
Proof. reflexivity. Qed.

Example replace_drops_devanagari :
  replaceNonAscii ([2344; 2350] ++ u16 " ok")%N = u16 " ok".
Proof. reflexivity. Qed.

Lemma trimStart_Forall (P : N → Prop) s : Forall P s → Forall P (trimStart s).
Proof.
  induction 1 as [|c r Hc Hr IH]; simpl; [constructor|].
  destruct (isWhiteSpace c); [exact IH | by constructor].
Qed.

Lemma trimEnd_Forall (P : N → Prop) s : Forall P s → Forall P (trimEnd s).
Proof.
  induction 1 as [|c r Hc Hr IH]; simpl; [constructor|].
  destruct (trimEnd r) as [|d r'].
  - destruct (isWhiteSpace c); repeat constructor; done.
  - by constructor.
Qed.

Lemma trim_Forall (P : N → Prop) s : Forall P s → Forall P (trim s).
Proof. intros. by apply trimEnd_Forall, trimStart_Forall. Qed.

Lemma trimStart_starts s : startsWithSpace (trimStart s) = false.
Proof.
  induction s as [|c r IH]; simpl; [done|].
  destruct (isWhiteSpace c) eqn:E; [exact IH | exact E].
Qed.

Lemma trimEnd_starts s :
  startsWithSpace s = false → startsWithSpace (trimEnd s) = false.
Proof.
  destruct s as [|c r]; simpl; [done|]. intros Hc.
  destruct (trimEnd r); [by rewrite Hc | exact Hc].
Qed.

Lemma trimEnd_ends s : endsWithSpace (trimEnd s) = false.
Proof.
  unfold endsWithSpace. induction s as [|c r IH]; simpl; [done|].
  destruct (trimEnd r) as [|d r'] eqn:E.
  - destruct (isWhiteSpace c) eqn:Ec; simpl; [done | by rewrite Ec].
  - exact IH.
Qed.

Lemma trim_starts s : startsWithSpace (trim s) = false.
Proof. apply trimEnd_starts, trimStart_starts. Qed.

Lemma trim_ends s : endsWithSpace (trim s) = false.
Proof. apply trimEnd_ends. Qed.

(** [trimEnd] removes a run of white space at the end, and nothing else. *)
Lemma trimEnd_decompose s :
  ∃ z, s = trimEnd s ++ z ∧ Forall (λ c, isWhiteSpace c = true) z.
Proof.
  induction s as [|c r (z & Hz & Hws)]; simpl.
  - exists []. by split.
  - destruct (trimEnd r) as [|d r'] eqn:E.
    + destruct (isWhiteSpace c) eqn:Ec.
      * exists (c :: r). split; [done|]. simpl in Hz. subst r. by constructor.
      * exists z. split; [|done]. simpl in *. by f_equal.
    + exists z. split; [|done]. simpl. by f_equal.
Qed.

Lemma trimStart_decompose s :
  ∃ z, s = z ++ trimStart s ∧ Forall (λ c, isWhiteSpace c = true) z.
Proof.
  induction s as [|c r (z & Hz & Hws)]; simpl.
  - exists []. by split.
  - destruct (isWhiteSpace c) eqn:Ec.
    + exists (c :: z). split; [simpl; by f_equal | by constructor].
    + exists []. by split.
Qed.

(** *** Splitting *)

Lemma split_nonempty s : split s ≠ [].
Proof.
  induction s as [|c r IH]; simpl; [done|].
  destruct (isWhiteSpace c).
  - destruct r as [|d r']; [done|]. by destruct (isWhiteSpace d).
  - by destruct (split r).
Qed.

Lemma split_hd_tl s : split s = hd [] (split s) :: tl (split s).
Proof. pose proof (split_nonempty s). by destruct (split s). Qed.

Lemma split_cons_word c s :
  isWhiteSpace c = false →
  split (c :: s) = (c :: hd [] (split s)) :: tl (split s).
Proof. intros Hc. simpl. rewrite Hc. by destruct (split s). Qed.

Lemma split_cons_space c s :
  isWhiteSpace c = true →
  ∃ ts, split (c :: s) = [] :: ts ∧ filter (λ w, 0 < length w) ts = wordsOf s.
Proof.
  revert c. induction s as [|d r IH]; intros c Hc.
  - exists [[]]. simpl. by rewrite Hc.
  - destruct (isWhiteSpace d) eqn:Ed.
    + destruct (IH d Ed) as (ts & Hts & Hf). exists ts.
      split.
      * change (split (c :: d :: r)) with
          (if isWhiteSpace c then
             if isWhiteSpace d then split (d :: r) else [] :: split (d :: r)
           else match split (d :: r) with
                | t :: ts => (c :: t) :: ts | [] => [[c]] end).
        by rewrite Hc, Ed.
      * unfold wordsOf. rewrite Hts, filter_cons_False; [done | simpl; lia].
    + exists (split (d :: r)). split; [|done].
      change (split (c :: d :: r)) with
          (if isWhiteSpace c then
             if isWhiteSpace d then split (d :: r) else [] :: split (d :: r)
           else match split (d :: r) with
                | t :: ts => (c :: t) :: ts | [] => [[c]] end).
      by rewrite Hc, Ed.
Qed.

Lemma wordsOf_cons_space c s : isWhiteSpace c = true → wordsOf (c :: s) = wordsOf s.
Proof.
  intros Hc. destruct (split_cons_space c s Hc) as (ts & Hts & Hf).
  unfold wordsOf at 1. rewrite Hts, filter_cons_False; [done | simpl; lia].
Qed.

Lemma split_app_space a c b :
  isWhiteSpace c = true →
  hd [] (split (a ++ c :: b)) = hd [] (split a)
  ∧ filter (λ w, 0 < length w) (tl (split (a ++ c :: b)))
    = filter (λ w, 0 < length w) (tl (split a)) ++ wordsOf b.
Proof.
  intros Hc. induction a as [|x a [IHh IHt]].
  - destruct (split_cons_space c b Hc) as (ts & Hts & Hf).
    simpl app. rewrite Hts. simpl. by rewrite Hf.
  - rewrite <- app_comm_cons. destruct (isWhiteSpace x) eqn:Ex.
    + destruct (split_cons_space x (a ++ c :: b) Ex) as (ts & Hts & Hf).
      destruct (split_cons_space x a Ex) as (ts' & Hts' & Hf').
      rewrite Hts, Hts'. simpl. split; [done|].
      rewrite Hf, Hf'. unfold wordsOf at 1 2.
      rewrite (split_hd_tl (a ++ c :: b)), (split_hd_tl a).
      rewrite !filter_cons, IHh, IHt.
      by destruct (decide (0 < length (hd [] (split a)))).
    + rewrite !split_cons_word by done. simpl. by rewrite IHh, IHt.
Qed.

(** White space between two strings separates their words. *)
Lemma wordsOf_app_space a c b :
  isWhiteSpace c = true → wordsOf (a ++ c :: b) = wordsOf a ++ wordsOf b.
Proof.
  intros Hc. destruct (split_app_space a c b Hc) as [Hh Ht].
  unfold wordsOf at 1 2.
  rewrite (split_hd_tl (a ++ c :: b)), (split_hd_tl a).
  rewrite !filter_cons, Hh, Ht.
  by destruct (decide (0 < length (hd [] (split a)))).
Qed.

Lemma wordsOf_nil : wordsOf [] = [].
Proof. reflexivity. Qed.

Lemma wordsOf_spaces z :
  Forall (λ c, isWhiteSpace c = true) z → wordsOf z = [].
Proof.
  induction 1 as [|c z Hc Hz IH]; [done|]. by rewrite wordsOf_cons_space.
Qed.

Lemma wordsOf_app_spaces_r s z :
  Forall (λ c, isWhiteSpace c = true) z → wordsOf (s ++ z) = wordsOf s.
Proof.
  intros Hz. destruct Hz as [|c z Hc Hz'].
  - by rewrite app_nil_r.
  - rewrite (wordsOf_app_space s c z Hc), (wordsOf_spaces z Hz').
    by rewrite app_nil_r.
Qed.

Lemma wordsOf_app_spaces_l z s :
  Forall (λ c, isWhiteSpace c = true) z → wordsOf (z ++ s) = wordsOf s.
Proof.
  induction 1 as [|c z Hc Hz IH]; [done|].
  simpl. by rewrite wordsOf_cons_space.
Qed.

(** Trimming does not change the words of a string. *)
Lemma wordsOf_trim s : wordsOf (trim s) = wordsOf s.
Proof.
  unfold trim.
  destruct (trimEnd_decompose (trimStart s)) as (z & Hz & Hws).
  destruct (trimStart_decompose s) as (z' & Hz' & Hws').
  rewrite Hz' at 2. rewrite wordsOf_app_spaces_l by done.
  rewrite Hz at 2. by rewrite wordsOf_app_spaces_r.
Qed.

(** *** Words and joining *)

Lemma split_Forall (P : N → Prop) s :
  Forall P s → Forall (Forall P) (split s).
Proof.
  induction 1 as [|c r Hc Hr IH]; simpl; [by repeat constructor|].
  destruct (isWhiteSpace c).
  - destruct r as [|d r']; [by repeat constructor|].
    destruct (isWhiteSpace d); [done | by constructor].
  - destruct (split r) as [|t ts]; [by repeat constructor|].
    inversion IH; subst. constructor; [by constructor | done].
Qed.

Lemma split_no_space s :
  Forall (Forall (λ c, isWhiteSpace c = false)) (split s).
Proof.
  induction s as [|c r IH]; simpl; [by repeat constructor|].
  destruct (isWhiteSpace c) eqn:Ec.
  - destruct r as [|d r']; [by repeat constructor|].
    destruct (isWhiteSpace d); [done | by constructor].
  - destruct (split r) as [|t ts]; [by repeat constructor|].
    inversion IH; subst. constructor; [by constructor | done].
Qed.

Lemma filter_keeps_Forall {A} (P Q : A → Prop) `{!∀ x, Decision (P x)} l :
  Forall Q l → Forall Q (filter P l).
Proof.
  induction 1 as [|x l Hx Hl IH]; [constructor|].
  rewrite filter_cons. destruct (decide (P x)); [by constructor | done].
Qed.

Lemma wordsOf_Forall (P : N → Prop) s :
  Forall P s → Forall (Forall P) (wordsOf s).
Proof. intros Hs. apply filter_keeps_Forall, split_Forall, Hs. Qed.

Lemma wordsOf_wordlike s : Forall wordlike (wordsOf s).
Proof.
  unfold wordsOf. pose proof (split_no_space s) as Hns.
  induction Hns as [|t ts Ht Hts IH]; [constructor|].
  rewrite filter_cons. destruct (decide (0 < length t)); [|done].
  constructor; [by split | done].
Qed.

Lemma split_word w :
  Forall (λ c, isWhiteSpace c = false) w → split w = [w].
Proof.
  induction 1 as [|c r Hc Hr IH]; [done|].
  by rewrite split_cons_word, IH.
Qed.

Lemma wordsOf_word w : wordlike w → wordsOf w = [w].
Proof.
  intros [Hlen Hns]. unfold wordsOf. rewrite split_word by done.
  by rewrite filter_cons_True.
Qed.

Lemma join_cons w ws : ws ≠ [] → join (w :: ws) = w ++ 32%N :: join ws.
Proof. by destruct ws. Qed.

Lemma join_app ws1 ws2 :
  ws1 ≠ [] → ws2 ≠ [] → join (ws1 ++ ws2) = join ws1 ++ 32%N :: join ws2.
Proof.
  intros H1 H2. induction ws1 as [|w ws1 IH]; [done|].
  destruct ws1 as [|w' ws1].
  - simpl app. by rewrite join_cons.
  - rewrite <- app_comm_cons, !join_cons by done.
    rewrite IH by done. by rewrite <- app_assoc.
Qed.

Lemma wordsOf_join ws : Forall wordlike ws → wordsOf (join ws) = ws.
Proof.
  induction 1 as [|w ws Hw Hws IH]; [done|].
  destruct ws as [|w' ws].
  - by apply wordsOf_word.
  - rewrite join_cons by done.
    rewrite wordsOf_app_space by done. by rewrite IH, wordsOf_word.
Qed.

Lemma join_Forall (P : N → Prop) ws :
  P 32%N → Forall (Forall P) ws → Forall P (join ws).
Proof.
  intros Hsp. induction 1 as [|w ws Hw Hws IH]; [constructor|].
  destruct ws as [|w' ws]; [done|].
  rewrite join_cons by done. apply Forall_app. split; [done|]. by constructor.
Qed.

Lemma join_empty ws : Forall wordlike ws → isEmpty (join ws) = true → ws = [].
Proof.
  intros Hws. destruct Hws as [|w ws [Hlen _] Hws]; [done|].
  destruct w as [|c w]; [simpl in Hlen; lia|]. by destruct ws.
Qed.

Lemma isEmpty_true s : isEmpty s = true → s = [].
Proof. by destruct s. Qed.

(** A non-empty string that starts with a word character has a word. *)
Lemma wordsOf_nonempty s :
  isEmpty s = false → startsWithSpace s = false → wordsOf s ≠ [].
Proof.
  destruct s as [|c r]; [done|]. simpl. intros _ Hc.
  unfold wordsOf. rewrite split_cons_word by done.
  rewrite filter_cons_True; [done | simpl; lia].
Qed.

(** *** Slices as [take] and [drop] *)

Lemma slice1_last {A} (l : list A) i :
  0 < i → slice1 l (- Z.of_nat i) = drop (length l - i) l.
Proof.
  intros Hi. unfold slice1, relIndex.
  destruct (Z.ltb_spec (- Z.of_nat i) 0); [|lia]. f_equal. lia.
Qed.

Lemma slice1_from {A} (l : list A) i : slice1 l (Z.of_nat i) = drop i l.
Proof.
  unfold slice1, relIndex.
  destruct (Z.ltb_spec (Z.of_nat i) 0); [lia|].
  destruct (decide (i ≤ length l)).
  - f_equal. lia.
  - rewrite !drop_ge; [done | lia | lia].
Qed.

Lemma slice2_first {A} (l : list A) i : slice2 l 0 (Z.of_nat i) = take i l.
Proof.
  unfold slice2, relIndex. simpl.
  destruct (Z.ltb_spec (Z.of_nat i) 0); [lia|].
  replace (Z.to_nat (0 `min` Z.of_nat (length l))) with 0 by lia.
  rewrite drop_0, Nat.sub_0_r.
  destruct (decide (i ≤ length l)).
  - f_equal. lia.
  - rewrite !take_ge; [done | lia | lia].
Qed.

End JSFacts.

(** * Facts about the merge *)

Module VerbatimFacts.
Import JS Verbatim JSFacts.

Section Merge.
Context `{UnicodeCase}.

(** The test of the scan, with the slices written as [take] and [drop]. *)
Lemma overlapsAt_take_drop mw iw i :
  0 < i →
  overlapsAt mw iw i ↔
  toLowerCase (join (drop (length mw - i) mw)) = toLowerCase (join (take i iw)).
Proof.
  intros Hi. unfold overlapsAt. by rewrite slice1_last, slice2_first.
Qed.

Lemma scanOverlap_step mw iw j :
  scanOverlap mw iw (S j) =
  if decide (overlapsAt mw iw (S j)) then Z.of_nat (S j)
  else scanOverlap mw iw j.
Proof. reflexivity. Qed.

Lemma scanOverlap_range mw iw i :
  scanOverlap mw iw i = (-1)%Z
  ∨ (1 ≤ scanOverlap mw iw i ≤ Z.of_nat i)%Z.
Proof.
  induction i as [|j IH]; [by left|].
  rewrite scanOverlap_step. destruct (decide _).
  - right. lia.
  - destruct IH as [IH|IH]; [by left | right; lia].
Qed.

(** No candidate of the scanned range matches exactly when the scan ends
    with [-1]. *)
Lemma scanOverlap_none mw iw i :
  scanOverlap mw iw i = (-1)%Z ↔ ∀ k, 0 < k ≤ i → ¬ overlapsAt mw iw k.
Proof.
  induction i as [|j IH].
  - split; [intros _ k Hk; lia | done].
  - rewrite scanOverlap_step. destruct (decide _) as [Hm|Hm].
    + split; [lia|]. intros Hno. destruct (Hno (S j)); [lia | done].
    + rewrite IH. split.
      * intros Hno k Hk. destruct (decide (k = S j)) as [->|]; [done|].
        apply Hno. lia.
      * intros Hno k Hk. apply Hno. lia.
Qed.

(** The scan stops at the first match from above: the longest one. *)
Lemma scanOverlap_found mw iw i j :
  scanOverlap mw iw i = Z.of_nat j →
  0 < j ≤ i ∧ overlapsAt mw iw j ∧ ∀ k, j < k ≤ i → ¬ overlapsAt mw iw k.
Proof.
  induction i as [|i' IH]; [simpl; lia|].
  rewrite scanOverlap_step. destruct (decide _) as [Hm|Hm].
  - intros Hj. apply Nat2Z.inj in Hj. subst j.
    split; [lia|]. split; [done|]. intros k Hk. lia.
  - intros Hj. destruct (IH Hj) as (Hr & Hat & Hno).
    split; [lia|]. split; [done|]. intros k Hk.
    destruct (decide (k = S i')) as [->|]; [done|]. apply Hno. lia.
Qed.

Lemma scanOverlap_longest mw iw i k :
  0 < k ≤ i → overlapsAt mw iw k →
  ∃ j, k ≤ j ≤ i ∧ scanOverlap mw iw i = Z.of_nat j.
Proof.
  intros Hk Hat.
  destruct (scanOverlap_range mw iw i) as [Hn|Hr].
  - destruct (proj1 (scanOverlap_none mw iw i) Hn k Hk Hat).
  - exists (Z.to_nat (scanOverlap mw iw i)).
    assert (Hj : scanOverlap mw iw i
                 = Z.of_nat (Z.to_nat (scanOverlap mw iw i))) by lia.
    split; [|done]. destruct (scanOverlap_found _ _ _ _ Hj) as (Hr' & _ & Hno).
    split; [|lia].
    destruct (decide (k ≤ Z.to_nat (scanOverlap mw iw i))); [done|].
    destruct (Hno k); [lia | done].
Qed.

(** A candidate of at most eight words reads the last eight words of the
    master only. *)
Lemma overlapsAt_window mw iw k :
  0 < k ≤ 8 →
  overlapsAt (drop (length mw - 8) mw) iw k ↔ overlapsAt mw iw k.
Proof.
  intros Hk. rewrite !overlapsAt_take_drop by lia.
  rewrite drop_drop, length_drop.
  replace (length mw - 8 + (length mw - (length mw - 8) - k))
    with (length mw - k) by lia.
  done.
Qed.

Lemma scanOverlap_window mw iw i :
  i ≤ 8 →
  scanOverlap (drop (length mw - 8) mw) iw i = scanOverlap mw iw i.
Proof.
  induction i as [|j IH]; [done|]. intros Hj.
  rewrite !scanOverlap_step.
  destruct (decide (overlapsAt mw iw (S j))) as [Hm|Hm];
    destruct (decide (overlapsAt (drop _ mw) iw (S j))) as [Hm'|Hm'].
  - done.
  - destruct Hm'. apply overlapsAt_window; [lia | done].
  - destruct Hm. apply (overlapsAt_window mw iw (S j)); [lia | done].
  - apply IH. lia.
Qed.

Lemma maxOverlap_le master incoming :
  maxOverlap master incoming ≤ 8
  ∧ maxOverlap master incoming ≤ length (committed master)
  ∧ maxOverlap master incoming ≤ length (incomingWords incoming).
Proof. unfold maxOverlap. lia. Qed.

Lemma overlapIndex_range master incoming :
  overlapIndex master incoming = (-1)%Z
  ∨ (1 ≤ overlapIndex master incoming
       ≤ Z.of_nat (maxOverlap master incoming))%Z.
Proof. apply scanOverlap_range. Qed.

Lemma incomingWords_wordlike incoming : Forall wordlike (incomingWords incoming).
Proof. apply wordsOf_wordlike. Qed.

Lemma committed_wordlike master : Forall wordlike (committed master).
Proof. apply wordsOf_wordlike. Qed.

(** Every path of [appendVerbatim] leaves the words of the master in place
    and adds the words of the cleaned delta after the overlap. *)
Lemma appendVerbatim_committed master incoming :
  committed (appendVerbatim master incoming)
  = committed master
    ++ drop (Z.to_nat (overlapIndex master incoming)) (incomingWords incoming).
Proof.
  pose proof (overlapIndex_range master incoming) as Hr.
  pose proof (maxOverlap_le master incoming) as (_ & Hmw & Hiw).
  unfold overlapIndex, maxOverlap, incomingWords in *.
  unfold appendVerbatim.
  destruct (isEmpty incoming) eqn:Ei.
  { apply isEmpty_true in Ei. subst incoming.
    change (wordsOf (trim (replaceNonAscii []))) with (@nil jsstring).
    by rewrite drop_nil, app_nil_r. }
  destruct (isEmpty (trim (replaceNonAscii incoming))) eqn:Ec.
  { apply isEmpty_true in Ec. rewrite Ec.
    by rewrite wordsOf_nil, drop_nil, app_nil_r. }
  fold (committed master).
  set (iw := wordsOf (trim (replaceNonAscii incoming))) in *.
  set (r := scanOverlap (committed master) iw _) in *.
  destruct (decide (length (committed master) = 0)) as [Hz|Hz].
  { apply nil_length_inv in Hz. rewrite Hz in *. simpl in *.
    destruct Hr as [Hr|Hr]; [|lia]. rewrite Hr. simpl.
    unfold committed. by rewrite wordsOf_trim. }
  destruct (decide (r ≠ (-1)%Z)) as [Hf|Hf].
  - destruct Hr as [Hr|Hr]; [done|].
    assert (Hs : slice1 iw r = drop (Z.to_nat r) iw).
    { rewrite <- slice1_from. f_equal. lia. }
    rewrite Hs.
    assert (Hwl : Forall wordlike (drop (Z.to_nat r) iw))
      by apply Forall_drop, wordsOf_wordlike.
    destruct (isEmpty (join (drop (Z.to_nat r) iw))) eqn:Eu.
    + apply join_empty in Eu; [|done]. by rewrite Eu, app_nil_r.
    + unfold committed. rewrite !wordsOf_trim.
      rewrite wordsOf_app_space by done. by rewrite wordsOf_join.
  - assert (r = (-1)%Z) as -> by (by destruct (decide (r = (-1)%Z))).
    simpl. unfold committed. rewrite !wordsOf_trim.
    rewrite wordsOf_app_space by done. unfold iw. by rewrite wordsOf_trim.
Qed.

(** *** ASCII transcripts *)

Lemma replaceNonAscii_ascii s : asciiOnly (replaceNonAscii s).
Proof.
  unfold asciiOnly, replaceNonAscii. apply Forall_forall.
  intros c Hc. by apply list_elem_of_filter in Hc as [Hc _].
Qed.

Lemma toLowerCase_ascii s : asciiOnly s → toLowerCase s = map lowerUnit s.
Proof.
  intros Hs. unfold toLowerCase.
  replace (forallb isAscii s) with true; [done|].
  induction Hs as [|c r Hc Hr IH]; [done|]. simpl. by rewrite Hc.
Qed.

Lemma incomingWords_ascii incoming :
  Forall asciiOnly (incomingWords incoming).
Proof. apply wordsOf_Forall, trim_Forall, replaceNonAscii_ascii. Qed.

Lemma committed_ascii master :
  asciiOnly master → Forall asciiOnly (committed master).
Proof. intros Hm. by apply wordsOf_Forall, trim_Forall. Qed.

Lemma join_ascii ws : Forall asciiOnly ws → asciiOnly (join ws).
Proof. intros Hws. by apply join_Forall. Qed.

Lemma appendVerbatim_ascii master incoming :
  asciiOnly master → asciiOnly (appendVerbatim master incoming).
Proof.
  intros Hm. unfold appendVerbatim.
  pose proof (replaceNonAscii_ascii incoming) as Hc.
  repeat case_match; try done; try (by apply trim_Forall).
  - apply trim_Forall, Forall_app. split; [done|]. constructor; [done|].
    apply join_ascii. unfold slice1. apply Forall_drop.
    apply wordsOf_Forall, trim_Forall, Hc.
  - apply trim_Forall, Forall_app. split; [done|]. constructor; [done|].
    by apply trim_Forall.
Qed.

Lemma trim_trimmed s : trimmed (trim s).
Proof. split; [apply trim_starts | apply trim_ends]. Qed.

Lemma appendVerbatim_trimmed master incoming :
  trimmed master → trimmed (appendVerbatim master incoming).
Proof.
  intros Hm. unfold appendVerbatim.
  repeat case_match; try done; apply trim_trimmed.
Qed.

(** *** The same delta again *)

Lemma overlap_extends (A A' B : list jsstring) :
  Forall asciiOnly A → Forall asciiOnly A' → Forall asciiOnly B →
  length A = length A' →
  toLowerCase (join A) = toLowerCase (join A') →
  toLowerCase (join (A ++ B)) = toLowerCase (join (A' ++ B)).
Proof.
  intros HA HA' HB Hlen Heq.
  destruct B as [|b B]; [by rewrite !app_nil_r|].
  destruct A as [|a A]; destruct A' as [|a' A']; try done.
  rewrite !join_app by done.
  rewrite toLowerCase_ascii in Heq by (by apply join_ascii).
  rewrite toLowerCase_ascii in Heq by (by apply join_ascii).
  rewrite !toLowerCase_ascii.
  - by rewrite !map_app, Heq.
  - apply Forall_app. split; [by apply join_ascii|].
    constructor; [done | by apply join_ascii].
  - apply Forall_app. split; [by apply join_ascii|].
    constructor; [done | by apply join_ascii].
Qed.

Lemma appendVerbatim_again master incoming :
  asciiOnly master →
  length (incomingWords incoming) ≤ 8 →
  appendVerbatim (appendVerbatim master incoming) incoming
  = appendVerbatim master incoming.
Proof.
  intros Hascii Hn.
  pose proof (appendVerbatim_committed master incoming) as Hc1.
  pose proof (overlapIndex_range master incoming) as Hr.
  pose proof (maxOverlap_le master incoming) as (_ & Hmw & Hiw).
  set (m1 := appendVerbatim master incoming) in *.
  unfold appendVerbatim at 1.
  destruct (isEmpty incoming) eqn:Ei; [done|].
  destruct (isEmpty (trim (replaceNonAscii incoming))) eqn:Ec; [done|].
  fold (committed m1). fold (incomingWords incoming).
  assert (Hne : incomingWords incoming ≠ []).
  { apply wordsOf_nonempty; [done | apply trim_starts]. }
  set (iw := incomingWords incoming) in *.
  set (mw := committed master) in *.
  set (L := Z.to_nat (overlapIndex master incoming)) in *.
  assert (HL : L ≤ length mw ∧ L ≤ length iw) by lia.
  assert (Hlen : length (committed m1) = length mw + (length iw - L)).
  { by rewrite Hc1, length_app, length_drop. }
  assert (Hpos : 0 < length iw) by (destruct iw; [done | simpl; lia]).
  destruct (decide (length (committed m1) = 0)) as [Hz|_]; [lia|].
  replace ((length (committed m1) `min` length iw) `min` 8)
    with (length iw) by lia.
  assert (Hat : overlapsAt (committed m1) iw (length iw)).
  { apply overlapsAt_take_drop; [done|].
    rewrite firstn_all, Hc1.
    replace (length (mw ++ drop L iw) - length iw) with (length mw - L)
      by (rewrite length_app, length_drop; lia).
    rewrite drop_app_le by lia.
    destruct Hr as [Hr|Hr].
    - replace L with 0 by lia.
      by rewrite Nat.sub_0_r, drop_all, drop_0.
    - rewrite <- (take_drop L iw) at 2.
      assert (Hj : overlapIndex master incoming = Z.of_nat L) by lia.
      apply scanOverlap_found in Hj as (HL' & Hov & _).
      apply overlapsAt_take_drop in Hov; [|lia].
      apply overlap_extends; try done.
      + by apply Forall_drop, committed_ascii.
      + apply Forall_take, incomingWords_ascii.
      + apply Forall_drop, incomingWords_ascii.
      + rewrite length_drop, length_take. fold mw. lia. }
  destruct (length iw) as [|j] eqn:Ej; [lia|].
  assert (Hs : scanOverlap (committed m1) iw (S j) = Z.of_nat (S j)).
  { rewrite scanOverlap_step. by destruct (decide _). }
  rewrite Hs.
  destruct (decide (Z.of_nat (S j) ≠ (-1)%Z)) as [_|Hbad]; [|lia].
  rewrite slice1_from, drop_ge by lia. done.
Qed.

(** *** Comparing without case *)

Lemma isWhiteSpace_printable c : (33 ≤ c ≤ 159)%N → isWhiteSpace c = false.
Proof.
  intros Hc. unfold isWhiteSpace.
  repeat match goal with
  | |- context [(?a <=? ?b)%N] => destruct (N.leb_spec a b); try lia
  | |- context [(?a =? ?b)%N] => destruct (N.eqb_spec a b); try lia
  end; try reflexivity.
Qed.

Lemma lowerUnit_space c : isWhiteSpace (lowerUnit c) = isWhiteSpace c.
Proof.
  unfold lowerUnit.
  destruct (N.leb_spec 65 c); [|done].
  destruct (N.leb_spec c 90); [|done]. simpl.
  rewrite !isWhiteSpace_printable by lia. done.
Qed.

Lemma wordlike_lower w : wordlike w → wordlike (map lowerUnit w).
Proof.
  intros [Hlen Hns]. split; [by rewrite length_map|].
  apply Forall_map. eapply Forall_impl; [exact Hns|].
  intros c Hc. simpl. by rewrite lowerUnit_space.
Qed.

Lemma join_lower ws :
  map lowerUnit (join ws) = join (map (map lowerUnit) ws).
Proof.
  induction ws as [|w ws IH]; [done|].
  destruct ws as [|w' ws]; [done|].
  rewrite join_cons by done.
  change (map (map lowerUnit) (w :: w' :: ws))
    with (map lowerUnit w :: map (map lowerUnit) (w' :: ws)).
  rewrite (join_cons (map lowerUnit w)) by (simpl; done).
  rewrite <- IH. by rewrite map_app.
Qed.

(** On ASCII words the test of the scan compares the two runs of words
    letter by letter, upper and lower case taken as equal. *)
Lemma lowered_join_eq (A B : list jsstring) :
  Forall asciiOnly A → Forall asciiOnly B →
  Forall wordlike A → Forall wordlike B →
  toLowerCase (join A) = toLowerCase (join B)
  ↔ map (map lowerUnit) A = map (map lowerUnit) B.
Proof.
  intros HA HB HwA HwB.
  rewrite !toLowerCase_ascii by (by apply join_ascii).
  rewrite !join_lower. split; [|by intros ->].
  intros Heq.
  rewrite <- (wordsOf_join (map (map lowerUnit) A)),
          <- (wordsOf_join (map (map lowerUnit) B)).
  - by rewrite Heq.
  - apply Forall_map. eapply Forall_impl; [exact HwB|].
    intros w. apply wordlike_lower.
  - apply Forall_map. eapply Forall_impl; [exact HwA|].
    intros w. apply wordlike_lower.
Qed.

Lemma overlapsAt_caseless master incoming k :
  asciiOnly master → 0 < k →
  overlapsAt (committed master) (incomingWords incoming) k
  ↔ map (map lowerUnit)
      (drop (length (committed master) - k) (committed master))
    = map (map lowerUnit) (take k (incomingWords incoming)).
Proof.
  intros Hm Hk. rewrite overlapsAt_take_drop by done.
  apply lowered_join_eq.
  - by apply Forall_drop, committed_ascii.
  - apply Forall_take, incomingWords_ascii.
  - apply Forall_drop, committed_wordlike.
  - apply Forall_take, incomingWords_wordlike.
Qed.

(** The scan reads the master through its last eight words. *)
Lemma overlapIndex_window master master' incoming :
  drop (length (committed master') - 8) (committed master')
  = drop (length (committed master) - 8) (committed master) →
  overlapIndex master' incoming = overlapIndex master incoming.
Proof.
  intros Hw. unfold overlapIndex, maxOverlap.
  set (iw := incomingWords incoming).
  rewrite <- (scanOverlap_window (committed master)) by lia.
  rewrite <- (scanOverlap_window (committed master')) by lia.
  rewrite Hw. f_equal.
  assert (Hl : length (committed master') `min` 8
               = length (committed master) `min` 8).
  { apply (f_equal length) in Hw. rewrite !length_drop in Hw. lia. }
  lia.
Qed.

Lemma asciiOnly_forallb s : forallb isAscii s = true → asciiOnly s.
Proof.
  induction s as [|c r IH]; [constructor|]. simpl.
  intros [Hc Hr]%andb_prop. constructor; [done | by apply IH].
Qed.


(** *** The same delta again, for any master *)

(** What a second delivery needs: a match of [L] words still matches when
    the rest of the delta follows on both sides. *)
Lemma appendVerbatim_again_if master incoming :
  (∀ L, 0 < L → L ≤ length (committed master) →
     L ≤ length (incomingWords incoming) →
     overlapsAt (committed master) (incomingWords incoming) L →
     toLowerCase
       (join (drop (length (committed master) - L) (committed master)
              ++ drop L (incomingWords incoming)))
     = toLowerCase (join (incomingWords incoming))) →
  length (incomingWords incoming) ≤ 8 →
  appendVerbatim (appendVerbatim master incoming) incoming
  = appendVerbatim master incoming.
Proof.
  intros Hext Hn.
  pose proof (appendVerbatim_committed master incoming) as Hc1.
  pose proof (overlapIndex_range master incoming) as Hr.
  pose proof (maxOverlap_le master incoming) as (_ & Hmw & Hiw).
  set (m1 := appendVerbatim master incoming) in *.
  unfold appendVerbatim at 1.
  destruct (isEmpty incoming) eqn:Ei; [done|].
  destruct (isEmpty (trim (replaceNonAscii incoming))) eqn:Ec; [done|].
  fold (committed m1). fold (incomingWords incoming).
  assert (Hne : incomingWords incoming ≠ []).
  { apply wordsOf_nonempty; [done | apply trim_starts]. }
  set (iw := incomingWords incoming) in *.
  set (mw := committed master) in *.
  set (L := Z.to_nat (overlapIndex master incoming)) in *.
  assert (HL : L ≤ length mw ∧ L ≤ length iw) by lia.
  assert (Hlen : length (committed m1) = length mw + (length iw - L)).
  { by rewrite Hc1, length_app, length_drop. }
  assert (Hpos : 0 < length iw) by (destruct iw; [done | simpl; lia]).
  destruct (decide (length (committed m1) = 0)) as [Hz|_]; [lia|].
  replace ((length (committed m1) `min` length iw) `min` 8)
    with (length iw) by lia.
  assert (Hat : overlapsAt (committed m1) iw (length iw)).
  { apply overlapsAt_take_drop; [done|].
    rewrite firstn_all, Hc1.
    replace (length (mw ++ drop L iw) - length iw) with (length mw - L)
      by (rewrite length_app, length_drop; lia).
    rewrite drop_app_le by lia.
    destruct Hr as [Hr|Hr].
    - replace L with 0 by lia.
      by rewrite Nat.sub_0_r, drop_all, drop_0.
    - assert (Hj : overlapIndex master incoming = Z.of_nat L) by lia.
      apply scanOverlap_found in Hj as (HL' & Hov & _).
      apply Hext; [lia | lia | lia | done]. }
  destruct (length iw) as [|j] eqn:Ej; [lia|].
  assert (Hs : scanOverlap (committed m1) iw (S j) = Z.of_nat (S j)).
  { rewrite scanOverlap_step. by destruct (decide _). }
  rewrite Hs.
  destruct (decide (Z.of_nat (S j) ≠ (-1)%Z)) as [_|Hbad]; [|lia].
  rewrite slice1_from, drop_ge by lia. done.
Qed.

Lemma appendVerbatim_again_any master incoming :
  lowersAcrossSpaces →
  length (incomingWords incoming) ≤ 8 →
  appendVerbatim (appendVerbatim master incoming) incoming
  = appendVerbatim master incoming.
Proof.
  intros Hlaw Hn. apply appendVerbatim_again_if; [|done].
  intros L HL Hmw Hiw Hov.
  apply overlapsAt_take_drop in Hov; [|done].
  set (A := drop (length (committed master) - L) (committed master)) in *.
  rewrite <- (take_drop L (incomingWords incoming)) at 2.
  destruct (drop L (incomingWords incoming)) as [|b B] eqn:EB.
  { by rewrite !app_nil_r. }
  assert (HA : A ≠ []).
  { intros HA. apply (f_equal length) in HA. unfold A in HA.
    rewrite length_drop in HA. simpl in HA. lia. }
  assert (HA' : take L (incomingWords incoming) ≠ []).
  { intros HA'. apply (f_equal length) in HA'.
    rewrite length_take in HA'. simpl in HA'. lia. }
  rewrite !join_app by done. by rewrite !Hlaw, Hov.
Qed.

(** The last [k] words of the master and the first [k] words of the delta
    being the same words is a match at [k]. *)
Lemma same_words_overlap mw iw k :
  0 < k → drop (length mw - k) mw = take k iw → overlapsAt mw iw k.
Proof.
  intros Hk Heq. apply overlapsAt_take_drop; [done|]. by rewrite Heq.
Qed.

Lemma unitCase_lowersAcrossSpaces : @lowersAcrossSpaces unitCase.
Proof.
  intros a b. unfold toLowerCase, unicodeLower, unitCase.
  assert (Hall : ∀ s, (if forallb isAscii s then map lowerUnit s
                       else map lowerUnit s) = map lowerUnit s)
    by (intros s; by destruct (forallb isAscii s)).
  rewrite !Hall. by rewrite map_app.
Qed.

End Merge.
End VerbatimFacts.

(** * The merge: overlap, window, append-only *)

Module MergeSpec.
Import JS Verbatim JSFacts VerbatimFacts.

(** Nine different words, delivered twice: the second delivery finds no
    overlap within eight words and appends all nine again. *)
Lemma identical_delta_of_nine_words_is_appended_twice :
  let d := u16 "a b c d e f g h i" in
  let once := @appendVerbatim plainCase [] d in
  let twice := @appendVerbatim plainCase once d in
  length (committed once) = 9 ∧ length (committed twice) = 18.
Proof. vm_compute. done. Qed.

(** C1 (as amended). When the last [k] words of the committed text match
    the first [k] words of the delta, [k] at most eight, and no longer run
    matches within the window, the merge adds the words of the delta after
    these [k] and nothing else, for any committed text; when the matching
    words are the very same words, the merge adds the words after a match
    that is at least as long. ["the quick brown"] then
    ["the quick brown fox"] gives the four words the, quick, brown, fox.
    Delivering the same delta of at most eight words a second time leaves
    the transcript as it is: for any committed text when [toLowerCase] works
    on each side of a space on its own, and for ASCII committed text
    whatever [toLowerCase] does elsewhere. The deltas ["I want to"],
    ["want to build"], ["build an app"] give "I want to build an app". *)
Theorem appendVerbatim_adds_only_new_words `{UnicodeCase} :
  (∀ master incoming k,
     0 < k ≤ 8 →
     k ≤ length (committed master) →
     k ≤ length (incomingWords incoming) →
     overlapsAt (committed master) (incomingWords incoming) k →
     (∀ j, k < j ≤ maxOverlap master incoming →
        ¬ overlapsAt (committed master) (incomingWords incoming) j) →
     committed (appendVerbatim master incoming)
     = committed master ++ drop k (incomingWords incoming))
  ∧ (∀ master incoming k,
       0 < k ≤ 8 →
       k ≤ length (committed master) →
       k ≤ length (incomingWords incoming) →
       drop (length (committed master) - k) (committed master)
       = take k (incomingWords incoming) →
       ∃ L, k ≤ L ≤ 8
         ∧ overlapsAt (committed master) (incomingWords incoming) L
         ∧ committed (appendVerbatim master incoming)
           = committed master ++ drop L (incomingWords incoming))
  ∧ committed (fold_left appendVerbatim
                 [u16 "the quick brown"; u16 "the quick brown fox"] [])
    = [u16 "the"; u16 "quick"; u16 "brown"; u16 "fox"]
  ∧ (∀ master incoming,
       lowersAcrossSpaces → length (incomingWords incoming) ≤ 8 →
       appendVerbatim (appendVerbatim master incoming) incoming
       = appendVerbatim master incoming)
  ∧ (∀ master incoming,
       asciiOnly master → length (incomingWords incoming) ≤ 8 →
       appendVerbatim (appendVerbatim master incoming) incoming
       = appendVerbatim master incoming)
  ∧ fold_left appendVerbatim
      [u16 "I want to"; u16 "want to build"; u16 "build an app"] []
    = u16 "I want to build an app".
Proof.
  assert (Hfound : ∀ master incoming k,
    0 < k ≤ maxOverlap master incoming →
    overlapsAt (committed master) (incomingWords incoming) k →
    ∃ L, k ≤ L ≤ maxOverlap master incoming
      ∧ overlapsAt (committed master) (incomingWords incoming) L
      ∧ committed (appendVerbatim master incoming)
        = committed master ++ drop L (incomingWords incoming)).
  { intros master incoming k Hk Hat.
    destruct (scanOverlap_longest _ _ _ k Hk Hat) as (L & HL & Hs).
    exists L. split; [done|]. split.
    - by apply scanOverlap_found in Hs as (_ & HatL & _).
    - rewrite appendVerbatim_committed. unfold overlapIndex.
      by rewrite Hs, Nat2Z.id. }
  split; [|split; [|split; [|split; [|split]]]].
  - intros master incoming k Hk Hmw Hiw Hat Hmax.
    destruct (Hfound master incoming k) as (L & HL & HatL & Hc);
      [unfold maxOverlap; lia | done |].
    destruct (decide (L = k)) as [->|Hne]; [done|].
    destruct (Hmax L); [lia | done].
  - intros master incoming k Hk Hmw Hiw Heq.
    destruct (Hfound master incoming k) as (L & HL & HatL & Hc);
      [unfold maxOverlap; lia | apply same_words_overlap; [lia | done] |].
    exists L. pose proof (maxOverlap_le master incoming) as (H8 & _).
    split; [lia | done].
  - vm_compute. done.
  - intros master incoming. apply appendVerbatim_again_any.
  - apply appendVerbatim_again.
  - vm_compute. done.
Qed.

Lemma appendVerbatim_adds_only_new_words_witness :
  let master := ([233] ++ u16 " the Quick")%N in
  let incoming := u16 "quick brown fox" in
  committed (@appendVerbatim unitCase master incoming)
  = committed master ++ drop 1 (incomingWords incoming)
  ∧ @appendVerbatim unitCase (@appendVerbatim unitCase master incoming) incoming
    = @appendVerbatim unitCase master incoming.
Proof.
  intros master incoming.
  destruct (@appendVerbatim_adds_only_new_words unitCase)
    as (Hnew & _ & _ & Hagain & _).
  split.
  - apply Hnew.
    + lia.
    + vm_compute. lia.
    + vm_compute. lia.
    + vm_compute. reflexivity.
    + intros j Hj.
      assert (Hj' : j = 2 ∨ j = 3) by (vm_compute in Hj; lia).
      destruct Hj' as [-> | ->]; vm_compute; discriminate.
  - apply Hagain.
    + apply unitCase_lowersAcrossSpaces.
    + vm_compute. lia.
Defined.

(** The last nine words of the committed text are the first nine words of
    the delta, all different: the scan finds no overlap at all, and the ten
    words of the delta are added after the nine. *)
Lemma nine_word_overlap_is_not_detected :
  let master := u16 "a b c d e f g h i" in
  let incoming := u16 "a b c d e f g h i j" in
  drop (length (committed master) - 9) (committed master)
  = take 9 (incomingWords incoming)
  ∧ @overlapIndex plainCase master incoming = (-1)%Z
  ∧ committed (@appendVerbatim plainCase master incoming)
    = committed master ++ incomingWords incoming
  ∧ length (committed (@appendVerbatim plainCase master incoming)) = 19.
Proof. vm_compute. done. Qed.

(** C2 (as amended). The scan reads the last eight words of the committed
    text and no more: two transcripts with the same last eight words get the
    same result, and the result is never above eight. It tries the lengths
    from the top down and stops at the first match, so the longest match of
    the window is the result, and no match gives [-1]. The comparison
    ignores letter case. An overlap of eight words is found whole. An
    overlap of more than eight words is never found whole: the result stays
    below its length, so words of the overlap are repeated in the merged
    text; eight of nine words are found in a repeating text; and when no run
    of one to eight words matches, as with nine different words, nothing is
    found and the whole delta is added. *)
Theorem overlap_search_window `{UnicodeCase} master incoming :
  (∀ master',
     drop (length (committed master') - 8) (committed master')
     = drop (length (committed master) - 8) (committed master) →
     overlapIndex master' incoming = overlapIndex master incoming)
  ∧ (overlapIndex master incoming = (-1)%Z
     ∨ (1 ≤ overlapIndex master incoming ≤ 8)%Z)
  ∧ (∀ L, overlapIndex master incoming = Z.of_nat L →
       overlapsAt (committed master) (incomingWords incoming) L
       ∧ ∀ k, L < k ≤ maxOverlap master incoming →
           ¬ overlapsAt (committed master) (incomingWords incoming) k)
  ∧ (∀ k, 0 < k ≤ maxOverlap master incoming →
       overlapsAt (committed master) (incomingWords incoming) k →
       (Z.of_nat k ≤ overlapIndex master incoming)%Z)
  ∧ (overlapIndex master incoming = (-1)%Z ↔
     ∀ k, 0 < k ≤ maxOverlap master incoming →
       ¬ overlapsAt (committed master) (incomingWords incoming) k)
  ∧ (∀ k, asciiOnly master → 0 < k →
       overlapsAt (committed master) (incomingWords incoming) k
       ↔ map (map lowerUnit)
           (drop (length (committed master) - k) (committed master))
         = map (map lowerUnit) (take k (incomingWords incoming)))
  ∧ length (committed master) + (length (incomingWords incoming) - 8)
    ≤ length (committed (appendVerbatim master incoming))
  ∧ committed (appendVerbatim master incoming)
    = committed master
      ++ drop (Z.to_nat (overlapIndex master incoming)) (incomingWords incoming)
  ∧ (overlapIndex master incoming = (-1)%Z →
     committed (appendVerbatim master incoming)
     = committed master ++ incomingWords incoming)
  ∧ (∀ n, 8 < n ≤ length (incomingWords incoming) →
       (overlapIndex master incoming < Z.of_nat n)%Z
       ∧ length (committed master) + (length (incomingWords incoming) - n)
         < length (committed (appendVerbatim master incoming)))
  ∧ appendVerbatim (u16 "Hello World") (u16 "hello world again")
    = u16 "Hello World again"
  ∧ overlapIndex (u16 "a b c d e f g h") (u16 "a b c d e f g h i") = 8%Z
  ∧ overlapIndex (u16 "x x x x x x x x x") (u16 "x x x x x x x x x y") = 8%Z
  ∧ overlapIndex (u16 "a b c d e f g h i") (u16 "a b c d e f g h i j")
    = (-1)%Z.
Proof.
  pose proof (overlapIndex_range master incoming) as Hr.
  pose proof (maxOverlap_le master incoming) as (H8 & _ & _).
  split; [|split; [|split; [|split; [|split; [|split; [|split;
    [|split; [|split; [|split]]]]]]]]].
  - intros master'. apply overlapIndex_window.
  - destruct Hr as [Hr|Hr]; [by left | right; lia].
  - intros L HL. apply scanOverlap_found in HL as (_ & Hat & Hno).
    split; [done|]. intros k Hk. by apply Hno.
  - intros k Hk Hat.
    destruct (scanOverlap_longest _ _ _ k Hk Hat) as (j & Hj & Hs).
    unfold overlapIndex. rewrite Hs. lia.
  - apply scanOverlap_none.
  - intros k Hm Hk. by apply overlapsAt_caseless.
  - rewrite appendVerbatim_committed, length_app, length_drop. lia.
  - apply appendVerbatim_committed.
  - intros Hnone. by rewrite appendVerbatim_committed, Hnone.
  - intros n Hn. split; [destruct Hr as [Hr|Hr]; lia|].
    rewrite appendVerbatim_committed, length_app, length_drop.
    destruct Hr as [Hr|Hr]; lia.
  - repeat split; vm_compute; reflexivity.
Qed.

Lemma overlap_search_window_witness :
  let master := u16 "one Two three" in
  let incoming := u16 "two THREE four" in
  @overlapIndex plainCase master incoming = 2%Z
  ∧ @overlapsAt plainCase (committed master) (incomingWords incoming) 2
  ∧ map (map lowerUnit) (drop 1 (committed master))
    = map (map lowerUnit) (take 2 (incomingWords incoming)).
Proof.
  intros master incoming.
  pose proof (@overlap_search_window plainCase master incoming)
    as (_ & _ & Hfound & _ & _ & Hcase & _).
  assert (Hi : @overlapIndex plainCase master incoming = Z.of_nat 2)
    by (vm_compute; reflexivity).
  split; [exact Hi|].
  destruct (Hfound 2 Hi) as [Hat _]. split; [exact Hat|].
  apply (proj1 (Hcase 2 ltac:(apply asciiOnly_forallb; vm_compute; reflexivity)
                      ltac:(lia)) Hat).
Defined.

(** *** Append-only *)

Lemma appendVerbatim_prefix `{UnicodeCase} master incoming :
  committed master `prefix_of` committed (appendVerbatim master incoming).
Proof. rewrite appendVerbatim_committed. by apply prefix_app_r. Qed.

Lemma onmessage_master `{UnicodeCase} app msg :
  VerbatimApp.masterTranscriptRef (VerbatimApp.onmessage app msg)
  = VerbatimApp.masterTranscriptRef app
  ∨ ∃ incoming,
      VerbatimApp.masterTranscriptRef (VerbatimApp.onmessage app msg)
      = appendVerbatim (VerbatimApp.masterTranscriptRef app) incoming.
Proof.
  unfold VerbatimApp.onmessage.
  destruct (Live.transcriptionText msg) as [[|c r]|]; [by left| |by left].
  destruct (decide _); [|by left]. right. by exists (c :: r).
Qed.

(** The handler applies the merge to the text of the message. *)
Lemma onmessage_delta `{UnicodeCase} app d :
  VerbatimApp.masterTranscriptRef (VerbatimApp.onmessage app (Live.delta d))
  = appendVerbatim (VerbatimApp.masterTranscriptRef app) d.
Proof.
  unfold VerbatimApp.onmessage. simpl. destruct d as [|c r]; [done|].
  destruct (decide _) as [Hne|Heq]; [done|].
  by destruct (decide
    (appendVerbatim (VerbatimApp.masterTranscriptRef app) (c :: r)
     = VerbatimApp.masterTranscriptRef app)).
Qed.

Lemma onmessage_deltas `{UnicodeCase} app ds :
  VerbatimApp.masterTranscriptRef
    (fold_left VerbatimApp.onmessage (map Live.delta ds) app)
  = fold_left appendVerbatim ds (VerbatimApp.masterTranscriptRef app).
Proof.
  revert app. induction ds as [|d ds IH]; intros app; [done|].
  simpl. by rewrite IH, onmessage_delta.
Qed.

Example session_of_three_deltas `{UnicodeCase} :
  VerbatimApp.masterTranscriptRef
    (fold_left VerbatimApp.onmessage
       (map Live.delta
          [u16 "I want to"; u16 "want to build"; u16 "build an app"])
       VerbatimApp.initialApp)
  = u16 "I want to build an app".
Proof. rewrite onmessage_deltas. vm_compute. reflexivity. Qed.

(** C3. Over any sequence of messages handled by [onmessage] (the deltas
    of a session), the words of the master transcript before are the first
    words of the master transcript after: no word is removed or changed, and
    the word count does not go down. *)
Theorem committed_is_append_only `{UnicodeCase} app msgs :
  let app' := fold_left VerbatimApp.onmessage msgs app in
  committed (VerbatimApp.masterTranscriptRef app)
    `prefix_of` committed (VerbatimApp.masterTranscriptRef app')
  ∧ length (committed (VerbatimApp.masterTranscriptRef app))
    ≤ length (committed (VerbatimApp.masterTranscriptRef app')).
Proof.
  simpl. assert (Hp : committed (VerbatimApp.masterTranscriptRef app)
    `prefix_of` committed (VerbatimApp.masterTranscriptRef
                             (fold_left VerbatimApp.onmessage msgs app))).
  { revert app. induction msgs as [|msg msgs IH]; intros app; [done|].
    simpl. etrans; [|apply IH].
    destruct (onmessage_master app msg) as [->|[incoming ->]]; [done|].
    apply appendVerbatim_prefix. }
  split; [done | by apply prefix_length].
Qed.

(** *** No overlap *)




(** *** ASCII and trimmed *)

(** C9. Every transcript obtained from the empty string by [appendVerbatim]
    with any deltas holds code units from 0 to 127 only, and neither starts
    nor ends with white space. *)
Theorem transcript_is_ascii_and_trimmed `{UnicodeCase} (deltas : list jsstring) :
  let master := fold_left appendVerbatim deltas [] in
  Forall (λ c, (c ≤ 127)%N) master
  ∧ startsWithSpace master = false
  ∧ endsWithSpace master = false.
Proof.
  simpl.
  assert (Hinv : ∀ m, asciiOnly m → trimmed m →
            asciiOnly (fold_left appendVerbatim deltas m)
            ∧ trimmed (fold_left appendVerbatim deltas m)).
  { induction deltas as [|d ds IH]; intros m Ha Ht; [done|].
    simpl. apply IH;
      [by apply appendVerbatim_ascii | by apply appendVerbatim_trimmed]. }
  destruct (Hinv [] ltac:(constructor) ltac:(done)) as [Ha [Hs He]].
  split; [|done].
  eapply Forall_impl; [exact Ha|]. intros c Hc. by apply N.leb_le.
Qed.

End MergeSpec.

(** * Saving, stopping and failing *)

Module SessionSpec.
Import JS Types Samples.

(** ** Stop *)

(** With [finalizeTurn] a stop on the text ["ok"], which is not empty after
    trimming, emits no snippet. *)
Lemma stop_on_two_characters_emits_nothing :
  isEmpty (trim (FinalizeApp.currentTranscriptionRef finalizeOk)) = false
  ∧ history (FinalizeApp.state (FinalizeApp.stopSession clock0 finalizeOk))
    = history (FinalizeApp.state finalizeOk).
Proof. vm_compute. done. Qed.

(** C5 (as amended). A stop emits exactly one snippet, whose text is the
    trimmed committed text, and leaves the buffer empty, when the trimmed
    text is longer than the floor of the variant: no floor with
    [saveToHistory], so every text that is not empty after trimming, and two
    characters with [finalizeTurn]. *)
Theorem stop_flushes_text_above_floor :
  (∀ clock app,
     0 < length (trim (VerbatimApp.masterTranscriptRef app)) →
     let app' := VerbatimApp.stopSession clock app in
     history (VerbatimApp.state app')
     = history (VerbatimApp.state app)
       ++ [newSnippet clock (trim (VerbatimApp.masterTranscriptRef app))]
     ∧ VerbatimApp.masterTranscriptRef app' = [])
  ∧ (∀ clock app,
       2 < length (trim (FinalizeApp.currentTranscriptionRef app)) →
       let app' := FinalizeApp.stopSession clock app in
       history (FinalizeApp.state app')
       = history (FinalizeApp.state app)
         ++ [newSnippet clock (trim (FinalizeApp.currentTranscriptionRef app))]
       ∧ FinalizeApp.currentTranscriptionRef app' = []).
Proof.
  split.
  - intros clock app Hlen. simpl.
    unfold VerbatimApp.stopSession, VerbatimApp.saveToHistory.
    by destruct (decide _).
  - intros clock app Hlen. simpl.
    unfold FinalizeApp.stopSession, FinalizeApp.finalizeTurn.
    by destruct (decide _).
Qed.

Lemma stop_flushes_text_above_floor_witness :
  history (VerbatimApp.state (VerbatimApp.stopSession clock0 verbatimHello))
  = [newSnippet clock0 (u16 "hello world")]
  ∧ VerbatimApp.masterTranscriptRef
      (VerbatimApp.stopSession clock0 verbatimHello) = [].
Proof.
  apply (proj1 stop_flushes_text_above_floor clock0 verbatimHello).
  vm_compute. lia.
Defined.

(** ** A failure of the session *)

(** C6. What [onerror] does: the pending transcript is saved as by a stop
    (one snippet when it is not empty after trimming) and the buffer is
    emptied, but the handler ends with status [idle]: [stopSession]
    overwrites the [error] status that [onerror] has just set. *)
Theorem onerror_flushes_and_ends_idle clock app :
  let app' := VerbatimApp.onerror clock app in
  status (VerbatimApp.state app') = idle
  ∧ isRecording (VerbatimApp.state app') = false
  ∧ VerbatimApp.masterTranscriptRef app' = []
  ∧ history (VerbatimApp.state app')
    = history (VerbatimApp.state app)
      ++ (if decide (0 < length (trim (VerbatimApp.masterTranscriptRef app)))
          then [newSnippet clock (trim (VerbatimApp.masterTranscriptRef app))]
          else []).
Proof.
  simpl. unfold VerbatimApp.onerror, VerbatimApp.stopSession,
    VerbatimApp.saveToHistory.
  repeat split. simpl. destruct (decide _); simpl; [done|].
  by rewrite app_nil_r.
Qed.

Lemma onerror_on_hello_world_ends_idle :
  status (VerbatimApp.state (VerbatimApp.onerror clock0 verbatimHello)) = idle
  ∧ history (VerbatimApp.state (VerbatimApp.onerror clock0 verbatimHello))
    = [newSnippet clock0 (u16 "hello world")].
Proof. vm_compute. done. Qed.

(** ** Turn complete *)

(** With [finalizeTurn] a turn-complete signal on the text ["ok"] emits no
    snippet. *)
Lemma turn_complete_on_two_characters_emits_nothing :
  isEmpty (trim (FinalizeApp.currentTranscriptionRef finalizeOk)) = false
  ∧ history (FinalizeApp.state
               (FinalizeApp.onmessage clock0 finalizeOk Live.turnCompleteSignal))
    = history (FinalizeApp.state finalizeOk).
Proof. vm_compute. done. Qed.

(** C7 (as amended). In the per-turn variants a turn-complete signal emits
    a snippet with the trimmed turn text at once and empties the turn
    buffer, when the trimmed text is longer than the floor of the variant:
    no floor where the turn is handled inside [onmessage], two characters
    with [finalizeTurn], three with [saveSnippet]. *)
Theorem turn_complete_emits_text_above_floor :
  (∀ clock app,
     isEmpty (trim (TurnApp.currentTurnText app)) = false →
     let app' := TurnApp.onmessage clock app Live.turnCompleteSignal in
     history (TurnApp.state app')
     = history (TurnApp.state app)
       ++ [newSnippet clock (trim (TurnApp.currentTurnText app))]
     ∧ TurnApp.currentTurnText app' = [])
  ∧ (∀ clock app,
       2 < length (trim (FinalizeApp.currentTranscriptionRef app)) →
       let app' := FinalizeApp.onmessage clock app Live.turnCompleteSignal in
       history (FinalizeApp.state app')
       = history (FinalizeApp.state app)
         ++ [newSnippet clock (trim (FinalizeApp.currentTranscriptionRef app))]
       ∧ FinalizeApp.currentTranscriptionRef app' = [])
  ∧ (∀ clock app,
       3 < length (trim (GatedApp.activeTranscriptionRef app)) →
       let app' := GatedApp.onmessage clock app Live.turnCompleteSignal in
       history (GatedApp.state app')
       = history (GatedApp.state app)
         ++ [newSnippet clock (trim (GatedApp.activeTranscriptionRef app))]
       ∧ GatedApp.activeTranscriptionRef app' = []).
Proof.
  split; [|split].
  - intros clock app Hne. simpl. unfold TurnApp.onmessage. simpl.
    by rewrite Hne.
  - intros clock app Hlen. simpl.
    unfold FinalizeApp.onmessage, FinalizeApp.finalizeTurn. simpl.
    by destruct (decide _).
  - intros clock app Hlen. simpl.
    unfold GatedApp.onmessage, GatedApp.saveSnippet. simpl.
    by destruct (decide _).
Qed.

Lemma turn_complete_emits_text_above_floor_witness :
  let app :=
    {| TurnApp.state := recording (u16 " ok ");
       TurnApp.currentTurnText := u16 " ok ";
       TurnApp.lastFinalizedText := [] |} in
  history (TurnApp.state (TurnApp.onmessage clock0 app Live.turnCompleteSignal))
  = [newSnippet clock0 (u16 "ok")]
  ∧ TurnApp.currentTurnText
      (TurnApp.onmessage clock0 app Live.turnCompleteSignal) = [].
Proof.
  intros app.
  apply (proj1 turn_complete_emits_text_above_floor clock0 app).
  vm_compute. reflexivity.
Defined.

(** ** Finalize and save *)

(** C8. After [finalizeTurn] and after [saveSnippet] the buffer and the
    live text are empty, whatever was buffered; and when the trimmed text
    has at most two characters ([finalizeTurn]) or at most three
    ([saveSnippet]) the history is unchanged: the text is dropped and no
    snippet is made. *)
Theorem finalize_clears_buffer_and_drops_short_text :
  (∀ clock app,
     let app' := FinalizeApp.finalizeTurn clock app in
     FinalizeApp.currentTranscriptionRef app' = []
     ∧ currentText (FinalizeApp.state app') = []
     ∧ (length (trim (FinalizeApp.currentTranscriptionRef app)) ≤ 2 →
        history (FinalizeApp.state app') = history (FinalizeApp.state app)))
  ∧ (∀ clock app,
       let app' := GatedApp.saveSnippet clock app in
       GatedApp.activeTranscriptionRef app' = []
       ∧ currentText (GatedApp.state app') = []
       ∧ (length (trim (GatedApp.activeTranscriptionRef app)) ≤ 3 →
          history (GatedApp.state app') = history (GatedApp.state app))).
Proof.
  split.
  - intros clock app. simpl. unfold FinalizeApp.finalizeTurn.
    repeat split. intros Hlen. destruct (decide _); [lia | done].
  - intros clock app. simpl. unfold GatedApp.saveSnippet.
    repeat split. intros Hlen. destruct (decide _); [lia | done].
Qed.

Lemma finalize_clears_buffer_and_drops_short_text_witness :
  (FinalizeApp.currentTranscriptionRef (FinalizeApp.finalizeTurn clock0 finalizeOk) = []
   ∧ history (FinalizeApp.state (FinalizeApp.finalizeTurn clock0 finalizeOk)) = [])
  ∧ (GatedApp.activeTranscriptionRef (GatedApp.saveSnippet clock0 gatedAbc) = []
     ∧ history (GatedApp.state (GatedApp.saveSnippet clock0 gatedAbc)) = []).
Proof.
  destruct finalize_clears_buffer_and_drops_short_text as [Hf Hg].
  destruct (Hf clock0 finalizeOk) as (Hb & _ & Hh).
  destruct (Hg clock0 gatedAbc) as (Hb' & _ & Hh').
  split; (split; [assumption|]).
  - apply Hh. vm_compute. lia.
  - apply Hh'. vm_compute. lia.
Defined.

(** In [App.tsx] the turn-complete signal changes nothing: the text stays in
    the one buffer of the session until the stop. *)
Lemma turn_complete_is_not_used_by_buffer_variant app :
  BufferApp.onmessage app Live.turnCompleteSignal = app.
Proof. reflexivity. Qed.

End SessionSpec.

(** * The loudness gate *)

Module AudioSpec.
Import JS Types GatedApp Samples.

(** With no session attached a frame of level 0.5 is not sent. *)
Lemma loud_frame_without_session_is_not_forwarded :
  (SILENCE_THRESHOLD <? rmsOf [0.5%float])%float = true
  ∧ sent (onaudioprocess (λ _, []) (withSession false) [0.5%float])
    = sent (withSession false).
Proof. vm_compute. done. Qed.

(** C10 (as amended). While a session is attached, a frame is sent exactly
    when its level, as the callback computes it, is strictly above
    [SILENCE_THRESHOLD], the double nearest to 0.008; a frame whose level
    equals the threshold is not sent; with no session attached nothing is
    sent and nothing changes. *)
Theorem gate_forwards_above_threshold
    (encodePCM : list float → jsstring) app inputData :
  let app' := onaudioprocess encodePCM app inputData in
  (sessionRef app = true →
     (sent app' = sent app ++ [mediaOf encodePCM inputData]
      ↔ (SILENCE_THRESHOLD <? rmsOf inputData)%float = true)
     ∧ ((SILENCE_THRESHOLD <? rmsOf inputData)%float = false →
        sent app' = sent app))
  ∧ (rmsOf inputData = SILENCE_THRESHOLD → sent app' = sent app)
  ∧ (sessionRef app = false → app' = app).
Proof.
  simpl. unfold onaudioprocess. split; [|split].
  - intros ->. simpl.
    destruct (SILENCE_THRESHOLD <? rmsOf inputData)%float; simpl.
    + done.
    + split; [|done]. split; [|done]. intros Heq.
      apply (f_equal length) in Heq. rewrite length_app in Heq.
      simpl in Heq. lia.
  - intros ->. destruct (sessionRef app); simpl; [|done].
    by replace (SILENCE_THRESHOLD <? SILENCE_THRESHOLD)%float with false
      by (vm_compute; reflexivity).
  - by intros ->.
Qed.

Lemma gate_forwards_above_threshold_witness :
  sent (onaudioprocess (λ _, []) (withSession true) [0.5%float])
  = [mediaOf (λ _, []) [0.5%float]]
  ∧ sent (onaudioprocess (λ _, []) (withSession true) [SILENCE_THRESHOLD])
    = []
  ∧ onaudioprocess (λ _, []) (withSession false) [0.5%float]
    = withSession false.
Proof.
  pose proof (gate_forwards_above_threshold (λ _, []) (withSession true)
                [0.5%float]) as (Hloud & _ & _).
  pose proof (gate_forwards_above_threshold (λ _, []) (withSession true)
                [SILENCE_THRESHOLD]) as (_ & Hequal & _).
  pose proof (gate_forwards_above_threshold (λ _, []) (withSession false)
                [0.5%float]) as (_ & _ & Hnone).
  split; [|split].
  - apply (proj1 (Hloud ltac:(reflexivity))). vm_compute. reflexivity.
  - apply Hequal. vm_compute. reflexivity.
  - apply Hnone. reflexivity.
Defined.

End AudioSpec.

(** * Further facts about trimming *)

Module TrimFacts.
Import JS Verbatim JSFacts.

Lemma trimStart_spaces z :
  Forall (λ c, isWhiteSpace c = true) z → trimStart z = [].
Proof. induction 1 as [|c z Hc Hz IH]; [done|]. simpl. by rewrite Hc. Qed.

Lemma trim_spaces z : Forall (λ c, isWhiteSpace c = true) z → trim z = [].
Proof. intros Hz. unfold trim. by rewrite trimStart_spaces. Qed.

Lemma trimStart_app_spaces z s :
  Forall (λ c, isWhiteSpace c = true) z → trimStart (z ++ s) = trimStart s.
Proof. induction 1 as [|c z Hc Hz IH]; [done|]. simpl. by rewrite Hc. Qed.

Lemma trim_app_spaces z s :
  Forall (λ c, isWhiteSpace c = true) z → trim (z ++ s) = trim s.
Proof. intros Hz. unfold trim. by rewrite trimStart_app_spaces. Qed.

Lemma trimStart_id s : startsWithSpace s = false → trimStart s = s.
Proof. destruct s as [|c r]; [done|]. simpl. by intros ->. Qed.

Lemma endsWithSpace_cons c d r :
  endsWithSpace (c :: d :: r) = endsWithSpace (d :: r).
Proof. reflexivity. Qed.

Lemma trimEnd_id s : endsWithSpace s = false → trimEnd s = s.
Proof.
  induction s as [|c r IH]; [done|]. destruct r as [|d r].
  - unfold endsWithSpace. simpl. by intros ->.
  - rewrite endsWithSpace_cons. intros He.
    change (trimEnd (c :: d :: r))
      with (match trimEnd (d :: r) with
            | [] => if isWhiteSpace c then [] else [c]
            | r' => c :: r'
            end).
    by rewrite (IH He).
Qed.

Lemma trim_id s : trimmed s → trim s = s.
Proof.
  intros [Hs He]. unfold trim. by rewrite trimStart_id, trimEnd_id.
Qed.

(** Text after a string that ends in a word character is trimmed on its
    own. *)
Lemma trimEnd_app_keep a b :
  a ≠ [] → endsWithSpace a = false → trimEnd (a ++ b) = a ++ trimEnd b.
Proof.
  induction a as [|c a IH]; [done|]. intros _. destruct a as [|d a].
  - unfold endsWithSpace. simpl. intros Hc.
    destruct (trimEnd b); [by rewrite Hc | done].
  - rewrite endsWithSpace_cons. intros He.
    change (trimEnd ((c :: d :: a) ++ b))
      with (match trimEnd ((d :: a) ++ b) with
            | [] => if isWhiteSpace c then [] else [c]
            | r' => c :: r'
            end).
    by rewrite (IH ltac:(done) He).
Qed.

Lemma trim_app_keep a b :
  a ≠ [] → trimmed a → trim (a ++ b) = a ++ trimEnd b.
Proof.
  intros Ha [Hs He]. unfold trim.
  rewrite trimStart_id by (by destruct a).
  by apply trimEnd_app_keep.
Qed.

(** A trimmed string without words is empty. *)
Lemma trimmed_no_words s : trimmed s → wordsOf s = [] → s = [].
Proof.
  intros [Hs _] Hw. destruct s as [|c r]; [done|].
  by destruct (wordsOf_nonempty (c :: r)).
Qed.

(** Trimming again, or after adding white space, changes nothing. *)
Lemma trim_trim_space s z :
  Forall (λ c, isWhiteSpace c = true) z → trim (trim s ++ z) = trim s.
Proof.
  intros Hz. destruct (trim s) as [|c r] eqn:E.
  - by apply trim_spaces.
  - rewrite <- E. rewrite trim_app_keep.
    + replace (trimEnd z) with (@nil N); [by rewrite app_nil_r|].
      clear -Hz. induction Hz as [|d z Hd Hz IH]; [done|].
      simpl. by rewrite <- IH, Hd.
    + by rewrite E.
    + split; [apply trim_starts | apply trim_ends].
Qed.

End TrimFacts.

(** * More about the merge *)

Module MergeExtras.
Import JS Verbatim JSFacts VerbatimFacts TrimFacts.

(** X1. A delta with nothing but white space after the ASCII filter (empty,
    blank, or all in another script) changes neither the transcript nor
    the state of the component. *)
Theorem blank_delta_changes_nothing `{UnicodeCase} app master incoming :
  Forall (λ c, isWhiteSpace c = true) (replaceNonAscii incoming) →
  appendVerbatim master incoming = master
  ∧ VerbatimApp.onmessage app (Live.delta incoming) = app.
Proof.
  intros Hz.
  assert (Hm : ∀ m, appendVerbatim m incoming = m).
  { intros m. unfold appendVerbatim.
    destruct (isEmpty incoming); [done|]. by rewrite trim_spaces. }
  split; [apply Hm|].
  unfold VerbatimApp.onmessage. simpl. destruct incoming as [|c r]; [done|].
  rewrite Hm. by destruct (decide _).
Qed.

Lemma blank_delta_changes_nothing_witness :
  @appendVerbatim plainCase (u16 "hello") ([2344; 2350; 32; 9]%N)
  = u16 "hello"
  ∧ @VerbatimApp.onmessage plainCase Samples.verbatimHello
      (Live.delta ([2344; 2350; 32; 9]%N))
    = Samples.verbatimHello.
Proof.
  apply (@blank_delta_changes_nothing plainCase).
  vm_compute. repeat constructor.
Defined.

(** X2. The merge never rewrites text: a transcript without white space at
    its ends is the beginning, character by character, of the transcript
    after a delta; so every transcript of a session begins with each of its
    earlier transcripts. *)
Theorem transcript_is_never_rewritten `{UnicodeCase} :
  (∀ master incoming,
     trimmed master → master `prefix_of` appendVerbatim master incoming)
  ∧ (∀ earlier later : list jsstring,
       fold_left appendVerbatim earlier []
         `prefix_of` fold_left appendVerbatim (earlier ++ later) []).
Proof.
  assert (Hstep : ∀ master incoming,
     trimmed master → master `prefix_of` appendVerbatim master incoming).
  { intros master incoming Ht. unfold appendVerbatim.
    destruct (isEmpty incoming); [done|].
    destruct (isEmpty (trim (replaceNonAscii incoming))); [done|].
    destruct (decide (length (wordsOf (trim master)) = 0)) as [Hz|Hz].
    { apply nil_length_inv in Hz. rewrite wordsOf_trim in Hz.
      rewrite (trimmed_no_words master Ht Hz). apply prefix_nil. }
    assert (Hne : master ≠ []).
    { intros ->. by apply Hz. }
    repeat case_match; try done;
      rewrite trim_app_keep by done; by apply prefix_app_r. }
  split; [exact Hstep|].
  intros earlier later. rewrite fold_left_app.
  assert (Ht : trimmed (fold_left appendVerbatim earlier [])).
  { assert (Hinv : ∀ m, trimmed m → trimmed (fold_left appendVerbatim earlier m)).
    { induction earlier as [|d ds IH]; intros m Hm; [done|].
      simpl. by apply IH, appendVerbatim_trimmed. }
    by apply Hinv. }
  revert Ht. generalize (fold_left appendVerbatim earlier []).
  induction later as [|d ds IH]; intros m Hm; [done|].
  simpl. etrans; [by apply Hstep|]. by apply IH, appendVerbatim_trimmed.
Qed.

Lemma transcript_is_never_rewritten_witness :
  u16 "Hello World"
    `prefix_of` @appendVerbatim plainCase (u16 "Hello World") (u16 "hello world again").
Proof.
  apply (proj1 (@transcript_is_never_rewritten plainCase)).
  vm_compute. done.
Defined.

(** X3. Sending again the last words of an ASCII transcript, at most eight of
    them and in any letter case, changes nothing. *)
Theorem resent_tail_changes_nothing `{UnicodeCase} master incoming :
  asciiOnly master →
  0 < length (incomingWords incoming) ≤ 8 →
  length (incomingWords incoming) ≤ length (committed master) →
  map (map lowerUnit)
    (drop (length (committed master) - length (incomingWords incoming))
       (committed master))
  = map (map lowerUnit) (incomingWords incoming) →
  appendVerbatim master incoming = master.
Proof.
  intros Hascii [Hpos H8] Hle Htail.
  assert (Hat : overlapsAt (committed master) (incomingWords incoming)
                  (length (incomingWords incoming))).
  { apply overlapsAt_caseless; [done | done |]. by rewrite firstn_all. }
  unfold appendVerbatim.
  destruct (isEmpty incoming); [done|].
  destruct (isEmpty (trim (replaceNonAscii incoming))); [done|].
  fold (committed master). fold (incomingWords incoming).
  set (iw := incomingWords incoming) in *.
  set (mw := committed master) in *.
  destruct (decide (length mw = 0)) as [Hz|_]; [lia|].
  replace ((length mw `min` length iw) `min` 8) with (length iw) by lia.
  destruct (length iw) as [|j] eqn:Ej; [lia|].
  assert (Hs : scanOverlap mw iw (S j) = Z.of_nat (S j)).
  { rewrite scanOverlap_step. by destruct (decide _). }
  rewrite Hs.
  destruct (decide (Z.of_nat (S j) ≠ (-1)%Z)) as [_|Hbad]; [|lia].
  rewrite slice1_from, drop_ge by lia. done.
Qed.

Lemma resent_tail_changes_nothing_witness :
  @appendVerbatim plainCase (u16 "I want to Build") (u16 "TO build")
  = u16 "I want to Build".
Proof.
  apply (@resent_tail_changes_nothing plainCase).
  - apply asciiOnly_forallb. vm_compute. reflexivity.
  - vm_compute. lia.
  - vm_compute. lia.
  - vm_compute. reflexivity.
Defined.

End MergeExtras.

(** * The life of a session *)

Module SessionExtras.
Import JS Verbatim Types VerbatimApp VerbatimSession.
Import JSFacts VerbatimFacts TrimFacts.

Section Run.
Context `{UnicodeCase}.

Ltac consistency :=
  unfold consistent, asciiOnly, trimmed in *; destruct_and?; simpl;
  repeat split; simpl; try done; try (by constructor).

Lemma stopSession_consistent clock app :
  asciiOnly (masterTranscriptRef app) →
  Forall cleanSnippet (history (state app)) →
  consistent (stopSession clock app).
Proof.
  intros Ha Hh. unfold stopSession, saveToHistory.
  destruct (decide _) as [Hlen|Hlen]; [|consistency].
  assert (Hc : cleanSnippet (newSnippet clock (trim (masterTranscriptRef app)))).
  { split; [|split]; simpl.
    - intros Hnil. rewrite Hnil in Hlen. simpl in Hlen. lia.
    - apply trim_trimmed.
    - by apply trim_Forall. }
  consistency. apply Forall_app. split; [done | by constructor].
Qed.

Lemma handle_consistent app e : consistent app → consistent (handle app e).
Proof.
  intros (Hd & Ha & Ht & Hh & Hs).
  destruct e as [mic| | |msg|clock| |clock|confirmed]; simpl.
  - unfold startSession. destruct mic; consistency.
  - consistency.
  - consistency.
  - unfold onmessage.
    destruct (Live.transcriptionText msg) as [[|c r]|];
      [consistency| |consistency].
    destruct (decide _); [|consistency].
    pose proof (appendVerbatim_ascii (masterTranscriptRef app) (c :: r) Ha).
    pose proof (appendVerbatim_trimmed (masterTranscriptRef app) (c :: r) Ht).
    consistency.
  - unfold onerror. by apply stopSession_consistent.
  - consistency.
  - by apply stopSession_consistent.
  - unfold purgeHistory. destruct confirmed; consistency.
Qed.

Lemma run_consistent events app : consistent app → consistent (run events app).
Proof.
  revert app. induction events as [|e es IH]; intros app Hc; [done|].
  simpl. by apply IH, handle_consistent.
Qed.

Lemma initialApp_consistent : consistent initialApp.
Proof. consistency. Qed.

(** X4. After any events, from the first render on, the text shown while
    recording is the master transcript itself, and the word counter shows
    the number of its words. *)
Theorem live_text_is_master_transcript events :
  let app := run events initialApp in
  currentText (state app) = masterTranscriptRef app
  ∧ wordCount (state app) = length (committed (masterTranscriptRef app)).
Proof.
  simpl. destruct (run_consistent events initialApp initialApp_consistent)
    as (Hd & _).
  split; [done|]. unfold wordCount, committed. by rewrite Hd.
Qed.

(** X5. After any events every snippet of the history has a text that is not
    empty, has no white space at its ends and is ASCII, and so has the
    master transcript that is still open. *)
Theorem saved_snippets_are_clean events :
  let app := run events initialApp in
  Forall cleanSnippet (history (state app))
  ∧ asciiOnly (masterTranscriptRef app)
  ∧ trimmed (masterTranscriptRef app).
Proof.
  simpl. destruct (run_consistent events initialApp initialApp_consistent)
    as (_ & Ha & Ht & Hh & _).
  done.
Qed.

(** X6. After any events a component whose status is idle or error is not
    recording. *)
Theorem idle_or_failed_is_not_recording events :
  let app := run events initialApp in
  match status (state app) with
  | idle | error => isRecording (state app) = false
  | connecting | listening => True
  end.
Proof.
  simpl. destruct (run_consistent events initialApp initialApp_consistent)
    as (_ & _ & _ & _ & Hs).
  by destruct (status _).
Qed.



End Run.


(** X8. A second stop, or the close that follows a failure, changes nothing:
    the snippet is saved once. *)
Theorem stop_twice_is_stop_once clock clock' app :
  stopSession clock' (stopSession clock app) = stopSession clock app
  ∧ stopSession clock' (onerror clock app) = onerror clock app
  ∧ onclose (onerror clock app) = onerror clock app
  ∧ onclose (stopSession clock app) = stopSession clock app.
Proof.
  unfold onerror, onclose, stopSession, saveToHistory.
  repeat split; simpl; by destruct (decide _).
Qed.

End SessionExtras.

(** * The per-turn variants *)

Module TurnExtras.
Import JS Types JSFacts TrimFacts.

Lemma finalize_delta clock app d :
  FinalizeApp.currentTranscriptionRef
    (FinalizeApp.onmessage clock app (Live.delta d))
  = FinalizeApp.currentTranscriptionRef app ++ d
  ∧ history (FinalizeApp.state (FinalizeApp.onmessage clock app (Live.delta d)))
    = history (FinalizeApp.state app).
Proof.
  unfold FinalizeApp.onmessage. simpl.
  destruct d as [|c r]; simpl; [by rewrite app_nil_r | done].
Qed.

Lemma gated_delta clock app d :
  GatedApp.activeTranscriptionRef
    (GatedApp.onmessage clock app (Live.delta d))
  = GatedApp.activeTranscriptionRef app ++ d
  ∧ history (GatedApp.state (GatedApp.onmessage clock app (Live.delta d)))
    = history (GatedApp.state app).
Proof.
  unfold GatedApp.onmessage. simpl.
  destruct d as [|c r]; simpl; [by rewrite app_nil_r | done].
Qed.

(** X9. In the per-turn variants the buffer is the plain concatenation of the
    deltas: nothing is inserted between them, nothing is dropped or
    deduplicated, and deltas alone never save a snippet. *)
Theorem deltas_are_concatenated clock (deltas : list jsstring) :
  (∀ app,
     let app' := fold_left (FinalizeApp.onmessage clock)
                   (map Live.delta deltas) app in
     FinalizeApp.currentTranscriptionRef app'
     = FinalizeApp.currentTranscriptionRef app ++ concat deltas
     ∧ history (FinalizeApp.state app') = history (FinalizeApp.state app))
  ∧ (∀ app,
       let app' := fold_left (GatedApp.onmessage clock)
                     (map Live.delta deltas) app in
       GatedApp.activeTranscriptionRef app'
       = GatedApp.activeTranscriptionRef app ++ concat deltas
       ∧ history (GatedApp.state app') = history (GatedApp.state app)).
Proof.
  split; induction deltas as [|d ds IH]; intros app; simpl;
    try (by rewrite app_nil_r).
  - destruct (IH (FinalizeApp.onmessage clock app (Live.delta d))) as [Hb Hh].
    destruct (finalize_delta clock app d) as [Hb1 Hh1].
    simpl in Hb, Hh. rewrite Hb, Hh, Hb1, Hh1. by rewrite <- app_assoc.
  - destruct (IH (GatedApp.onmessage clock app (Live.delta d))) as [Hb Hh].
    destruct (gated_delta clock app d) as [Hb1 Hh1].
    simpl in Hb, Hh. rewrite Hb, Hh, Hb1, Hh1. by rewrite <- app_assoc.
Qed.

Lemma finalizeTurn_history clock app :
  ∃ new,
    history (FinalizeApp.state (FinalizeApp.finalizeTurn clock app))
    = history (FinalizeApp.state app) ++ new
    ∧ Forall (λ s, 2 < length (text s) ∧ trimmed (text s)) new
    ∧ length new ≤ 1.
Proof.
  unfold FinalizeApp.finalizeTurn. destruct (decide _) as [Hlen|Hlen].
  - exists [newSnippet clock (trim (FinalizeApp.currentTranscriptionRef app))].
    split; [done|]. split; [|simpl; lia].
    constructor; [|done]. split; [done | apply VerbatimFacts.trim_trimmed].
  - exists []. split; [by rewrite app_nil_r|]. split; [done | simpl; lia].
Qed.

Lemma finalize_message_history clock app msg :
  ∃ new,
    history (FinalizeApp.state (FinalizeApp.onmessage clock app msg))
    = history (FinalizeApp.state app) ++ new
    ∧ Forall (λ s, 2 < length (text s) ∧ trimmed (text s)) new
    ∧ length new ≤ (if Live.isTurnComplete msg then 1 else 0).
Proof.
  unfold FinalizeApp.onmessage.
  set (app1 := if Live.truthy (Live.transcriptionText msg) then _ else app).
  assert (H1 : history (FinalizeApp.state app1) = history (FinalizeApp.state app)).
  { unfold app1. by destruct (Live.truthy _). }
  destruct (Live.isTurnComplete msg).
  - rewrite <- H1. apply finalizeTurn_history.
  - exists []. split; [by rewrite app_nil_r|]. split; [done | simpl; lia].
Qed.

Lemma saveSnippet_history clock app :
  ∃ new,
    history (GatedApp.state (GatedApp.saveSnippet clock app))
    = history (GatedApp.state app) ++ new
    ∧ Forall (λ s, 3 < length (text s) ∧ trimmed (text s)) new
    ∧ length new ≤ 1.
Proof.
  unfold GatedApp.saveSnippet. destruct (decide _) as [Hlen|Hlen].
  - exists [newSnippet clock (trim (GatedApp.activeTranscriptionRef app))].
    split; [done|]. split; [|simpl; lia].
    constructor; [|done]. split; [done | apply VerbatimFacts.trim_trimmed].
  - exists []. split; [by rewrite app_nil_r|]. split; [done | simpl; lia].
Qed.

Lemma gated_message_history clock app msg :
  ∃ new,
    history (GatedApp.state (GatedApp.onmessage clock app msg))
    = history (GatedApp.state app) ++ new
    ∧ Forall (λ s, 3 < length (text s) ∧ trimmed (text s)) new
    ∧ length new ≤ (if Live.isTurnComplete msg then 1 else 0).
Proof.
  unfold GatedApp.onmessage.
  set (app1 := if Live.truthy (Live.transcriptionText msg) then _ else app).
  assert (H1 : history (GatedApp.state app1) = history (GatedApp.state app)).
  { unfold app1. by destruct (Live.truthy _). }
  destruct (Live.isTurnComplete msg).
  - rewrite <- H1. apply saveSnippet_history.
  - exists []. split; [by rewrite app_nil_r|]. split; [done | simpl; lia].
Qed.

(** X10. Over any messages the per-turn variants only add snippets to the
    history, each with a trimmed text longer than the floor of the variant
    (two characters with [finalizeTurn], three with [saveSnippet]), and at
    most one for each turn-complete signal. *)
Theorem turn_snippets_are_above_floor
    (messages : list (Clock * Live.ServerMessage)) :
  (∀ app, ∃ new,
     history (FinalizeApp.state
       (fold_left (λ a cm, FinalizeApp.onmessage cm.1 a cm.2) messages app))
     = history (FinalizeApp.state app) ++ new
     ∧ Forall (λ s, 2 < length (text s) ∧ trimmed (text s)) new
     ∧ length new
       ≤ length (List.filter (λ cm, Live.isTurnComplete cm.2) messages))
  ∧ (∀ app, ∃ new,
       history (GatedApp.state
         (fold_left (λ a cm, GatedApp.onmessage cm.1 a cm.2) messages app))
       = history (GatedApp.state app) ++ new
       ∧ Forall (λ s, 3 < length (text s) ∧ trimmed (text s)) new
       ∧ length new
         ≤ length (List.filter (λ cm, Live.isTurnComplete cm.2) messages)).
Proof.
  split; induction messages as [|[c m] ms IH]; intros app;
    try (exists []; by rewrite app_nil_r).
  - destruct (finalize_message_history c app m) as (n1 & H1 & F1 & L1).
    destruct (IH (FinalizeApp.onmessage c app m)) as (n2 & H2 & F2 & L2).
    exists (n1 ++ n2). simpl. rewrite H2, H1, app_assoc.
    split; [done|]. split; [by apply Forall_app|].
    rewrite length_app. destruct (Live.isTurnComplete m); simpl; lia.
  - destruct (gated_message_history c app m) as (n1 & H1 & F1 & L1).
    destruct (IH (GatedApp.onmessage c app m)) as (n2 & H2 & F2 & L2).
    exists (n1 ++ n2). simpl. rewrite H2, H1, app_assoc.
    split; [done|]. split; [by apply Forall_app|].
    rewrite length_app. destruct (Live.isTurnComplete m); simpl; lia.
Qed.

(** X11. A stop right after a message that completes the turn saves nothing
    more: the turn is saved once, or, below the floor, not at all. *)
Theorem stop_after_turn_complete_saves_nothing clock clock' msg :
  Live.isTurnComplete msg = true →
  (∀ app,
     history (FinalizeApp.state
       (FinalizeApp.stopSession clock' (FinalizeApp.onmessage clock app msg)))
     = history (FinalizeApp.state (FinalizeApp.onmessage clock app msg)))
  ∧ (∀ app,
       history (GatedApp.state
         (GatedApp.stopSession clock' (GatedApp.onmessage clock app msg)))
       = history (GatedApp.state (GatedApp.onmessage clock app msg)))
  ∧ (∀ s,
       history (TurnApp.state (TurnSession.app
         (TurnSession.stopSession clock' (TurnSession.onmessage clock s msg))))
       = history (TurnApp.state (TurnSession.app
           (TurnSession.onmessage clock s msg)))).
Proof.
  intros Htc. split; [|split].
  - intros app. unfold FinalizeApp.stopSession, FinalizeApp.onmessage.
    rewrite Htc. unfold FinalizeApp.finalizeTurn at 1. simpl. done.
  - intros app. unfold GatedApp.stopSession, GatedApp.onmessage.
    rewrite Htc. unfold GatedApp.saveSnippet at 1. simpl. done.
  - intros s. unfold TurnSession.stopSession, TurnSession.onmessage.
    simpl. unfold TurnApp.onmessage. rewrite Htc.
    set (app1 := match Live.serverContent msg with
                 | Some {| Live.inputTranscription := Some _ |} => _
                 | _ => _ end).
    destruct (isEmpty (trim (TurnApp.currentTurnText app1))) eqn:E; simpl.
    + by rewrite E.
    + done.
Qed.

Lemma stop_after_turn_complete_saves_nothing_witness :
  history (FinalizeApp.state
    (FinalizeApp.stopSession Samples.clock0
       (FinalizeApp.onmessage Samples.clock0 Samples.finalizeOk
          Live.turnCompleteSignal)))
  = history (FinalizeApp.state
      (FinalizeApp.onmessage Samples.clock0 Samples.finalizeOk
         Live.turnCompleteSignal)).
Proof.
  apply (stop_after_turn_complete_saves_nothing Samples.clock0 Samples.clock0
           Live.turnCompleteSignal).
  reflexivity.
Defined.

(** X12. A message whose transcription has no [text]: the variants that test
    the text ignore it; the variants that test the transcription object
    append the word "undefined" to their buffer. *)
Theorem transcription_without_text clock :
  let msg :=
    {| Live.serverContent :=
         Some {| Live.inputTranscription := Some {| Live.text := None |};
                 Live.turnComplete := false |} |} in
  (∀ app, FinalizeApp.onmessage clock app msg = app)
  ∧ (∀ app, GatedApp.onmessage clock app msg = app)
  ∧ (∀ (lower : UnicodeCase) app, @VerbatimApp.onmessage lower app msg = app)
  ∧ (∀ app,
       TurnApp.currentTurnText (TurnApp.onmessage clock app msg)
       = TurnApp.currentTurnText app ++ u16 "undefined")
  ∧ (∀ app,
       BufferApp.transcriptionBuffer (BufferApp.onmessage app msg)
       = BufferApp.transcriptionBuffer app ++ u16 "undefined")
  ∧ (∀ app,
       PermanentApp.turnDeltaRef (PermanentApp.onmessage app msg)
       = PermanentApp.turnDeltaRef app ++ u16 "undefined").
Proof. repeat split. Qed.

End TurnExtras.

(** * Audio frames, the permanent transcript, and [App.tsx] *)

Module MoreExtras.
Import JS Verbatim Types JSFacts VerbatimFacts TrimFacts.

Lemma onaudioprocess_step encodePCM app inputData :
  let app' := GatedApp.onaudioprocess encodePCM app inputData in
  GatedApp.state app' = GatedApp.state app
  ∧ GatedApp.activeTranscriptionRef app' = GatedApp.activeTranscriptionRef app
  ∧ GatedApp.sessionRef app' = GatedApp.sessionRef app
  ∧ GatedApp.sent app `prefix_of` GatedApp.sent app'
  ∧ length (GatedApp.sent app') ≤ S (length (GatedApp.sent app))
  ∧ (GatedApp.sessionRef app = false → app' = app).
Proof.
  simpl. unfold GatedApp.onaudioprocess.
  destruct (GatedApp.sessionRef app) eqn:Es; simpl; [|by repeat split; try lia].
  destruct (GatedApp.SILENCE_THRESHOLD <? GatedApp.rmsOf inputData)%float;
    simpl; repeat split; try done; try lia.
  - by apply prefix_app_r.
  - rewrite length_app. simpl. lia.
Qed.

(** X13. Audio frames never touch the transcript: over any frames the state,
    the history in it and the buffer are unchanged; the messages sent are
    kept and at most one is added for each frame; and with no session
    attached nothing changes at all. *)
Theorem audio_frames_leave_the_transcript
    (encodePCM : list float → jsstring) (frames : list (list float)) app :
  let app' := fold_left (GatedApp.onaudioprocess encodePCM) frames app in
  GatedApp.state app' = GatedApp.state app
  ∧ GatedApp.activeTranscriptionRef app' = GatedApp.activeTranscriptionRef app
  ∧ GatedApp.sent app `prefix_of` GatedApp.sent app'
  ∧ length (GatedApp.sent app') ≤ length (GatedApp.sent app) + length frames
  ∧ (GatedApp.sessionRef app = false → app' = app).
Proof.
  simpl. revert app. induction frames as [|f fs IH]; intros app.
  - simpl. repeat split; try done. lia.
  - destruct (onaudioprocess_step encodePCM app f)
      as (Hs & Hb & Hr & Hp & Hl & Hn).
    destruct (IH (GatedApp.onaudioprocess encodePCM app f))
      as (Hs' & Hb' & Hp' & Hl' & Hn').
    simpl in *. rewrite Hs', Hb', Hs, Hb.
    repeat split; try done.
    + by etrans.
    + lia.
    + intros Hoff. rewrite Hn' by (by rewrite Hr). by apply Hn.
Qed.

Lemma audio_frames_leave_the_transcript_witness :
  fold_left (GatedApp.onaudioprocess (λ _, []))
    [[0.5%float]; [0%float]] (Samples.withSession false)
  = Samples.withSession false.
Proof.
  apply (audio_frames_leave_the_transcript (λ _, [])
           [[0.5%float]; [0%float]] (Samples.withSession false)).
  reflexivity.
Defined.

(** ** The permanent transcript *)

Lemma permanent_lock app :
  (if Live.isTurnComplete
        {| Live.serverContent :=
             Some {| Live.inputTranscription := None;
                     Live.turnComplete := true |} |}
   then PermanentApp.fullText
          (PermanentApp.setRefs (PermanentApp.fullText app) [] app)
   else []) = PermanentApp.fullText app.
Proof.
  simpl. unfold PermanentApp.fullText at 1. simpl.
  apply (trim_trim_space _ [32%N]). by repeat constructor.
Qed.

(** X14. Completing a turn does not change the text that a stop would save:
    the turn is moved into the permanent transcript as it stands. The next
    delta is then kept apart from it: its words follow the words saved so
    far, and no word runs across the turn boundary. *)
Theorem turn_boundary_is_a_word_boundary app (delta : jsstring) :
  let locked := PermanentApp.onmessage app Live.turnCompleteSignal in
  PermanentApp.fullText locked = PermanentApp.fullText app
  ∧ PermanentApp.turnDeltaRef locked = []
  ∧ history (PermanentApp.state locked) = history (PermanentApp.state app)
  ∧ wordsOf (PermanentApp.fullText
               (PermanentApp.onmessage locked (Live.delta delta)))
    = wordsOf (PermanentApp.fullText app) ++ wordsOf delta.
Proof.
  simpl. pose proof (permanent_lock app) as Hlock. simpl in Hlock.
  unfold PermanentApp.onmessage. simpl. split; [exact Hlock|].
  split; [done|]. split; [done|].
  unfold PermanentApp.fullText at 1. simpl.
  rewrite wordsOf_trim, wordsOf_app_space by done. done.
Qed.

(** X15. After a message with a transcription the text shown is the ASCII part
    of the text a stop would save, which is not filtered itself. *)
Theorem shown_text_is_ascii_part_of_saved_text app msg content transcription :
  Live.serverContent msg = Some content →
  Live.inputTranscription content = Some transcription →
  let app' := PermanentApp.onmessage app msg in
  currentText (PermanentApp.state app')
  = PermanentApp.stripNonRoman (PermanentApp.fullText app')
  ∧ asciiOnly (currentText (PermanentApp.state app'))
  ∧ ∀ clock,
      history (PermanentApp.state (PermanentApp.stopSession clock app'))
      = history (PermanentApp.state app')
        ++ (if decide (0 < length (PermanentApp.fullText app'))
            then [newSnippet clock (PermanentApp.fullText app')] else []).
Proof.
  intros Hc Ht. simpl.
  assert (Hshown : currentText (PermanentApp.state (PermanentApp.onmessage app msg))
    = PermanentApp.stripNonRoman
        (PermanentApp.fullText (PermanentApp.onmessage app msg))).
  { unfold PermanentApp.onmessage, Live.isTurnComplete. rewrite Hc.
    destruct content as [it tc]. simpl in Ht. subst it.
    destruct tc; simpl; [|done].
    unfold PermanentApp.fullText. simpl.
    by rewrite (trim_trim_space _ [32%N]) by (by repeat constructor). }
  split; [exact Hshown|]. split.
  - rewrite Hshown. apply replaceNonAscii_ascii.
  - intros clock. unfold PermanentApp.stopSession, PermanentApp.saveToHistory.
    destruct (decide _); simpl; [done | by rewrite app_nil_r].
Qed.

Lemma shown_text_is_ascii_part_of_saved_text_witness :
  let app :=
    {| PermanentApp.state := Samples.recording [];
       PermanentApp.permanentTranscriptRef := u16 "namaste";
       PermanentApp.turnDeltaRef := [];
       PermanentApp.activeSessionRef := true; PermanentApp.streamRef := true;
       PermanentApp.audioContextRef := true; PermanentApp.volume := 0%float |} in
  let msg := Live.delta ([2344; 2350] ++ u16 " ji")%N in
  currentText (PermanentApp.state (PermanentApp.onmessage app msg))
  = u16 "namaste  ji"
  ∧ PermanentApp.fullText (PermanentApp.onmessage app msg)
    = (u16 "namaste " ++ [2344; 2350] ++ u16 " ji")%N.
Proof.
  intros app msg.
  destruct (shown_text_is_ascii_part_of_saved_text app msg _ _
              eq_refl eq_refl) as (Hshown & _ & _).
  split; [|vm_compute; reflexivity].
  rewrite Hshown. vm_compute. reflexivity.
Defined.

(** ** [App.tsx] *)

(** X16. [stopListening] saves the trimmed buffer when it is not empty, and
    leaves a buffer that is empty or blank: the buffer is cleared only when
    it is saved, and [startListening] does not reset it, but what stays
    never shows in the snippet of the next session. *)
Theorem stopListening_leaves_a_blank_buffer clock (s : ListenSession.Session) :
  let s' := ListenSession.stopListening clock s in
  let buffer := BufferApp.transcriptionBuffer (ListenSession.app s) in
  history (BufferApp.state (ListenSession.app s'))
  = history (BufferApp.state (ListenSession.app s))
    ++ (if isEmpty (trim buffer) then [] else [newSnippet clock (trim buffer)])
  ∧ trim (BufferApp.transcriptionBuffer (ListenSession.app s')) = []
  ∧ (∀ micGranted connected,
       BufferApp.transcriptionBuffer
         (ListenSession.app (ListenSession.startListening micGranted connected s'))
       = BufferApp.transcriptionBuffer (ListenSession.app s'))
  ∧ (∀ later,
       trim (BufferApp.transcriptionBuffer (ListenSession.app s') ++ later)
       = trim later).
Proof.
  simpl. unfold ListenSession.stopListening.
  destruct (isEmpty (trim (BufferApp.transcriptionBuffer (ListenSession.app s))))
    eqn:E; simpl.
  - apply isEmpty_true in E. split; [by rewrite app_nil_r|]. split; [done|].
    split.
    + intros mic con. unfold ListenSession.startListening.
      destruct mic, con; done.
    + intros later. unfold trim in *.
      destruct (trimStart_decompose
                  (BufferApp.transcriptionBuffer (ListenSession.app s)))
        as (z & Hz & Hws).
      assert (Hts : trimStart (BufferApp.transcriptionBuffer (ListenSession.app s)) = []).
      { destruct (trimStart _) as [|c r] eqn:Et; [done|].
        pose proof (trimStart_starts
                      (BufferApp.transcriptionBuffer (ListenSession.app s))) as Hst.
        rewrite Et in Hst. simpl in Hst.
        simpl in E. destruct (trimEnd r); [by rewrite Hst in E | done]. }
      rewrite Hts, app_nil_r in Hz. rewrite Hz.
      by rewrite trimStart_app_spaces.
  - split; [done|]. split; [done|]. split; [|done].
    intros mic con. unfold ListenSession.startListening.
    destruct mic, con; done.
Qed.

(** X17. A start that fails ends in status error, not recording, with buffer,
    live text and history untouched. When the microphone is refused nothing
    is held; when the connection fails the stream and the audio context stay
    open, since the [catch] releases nothing, until a stop releases them. *)
Theorem failed_start_releases_nothing clock (s : ListenSession.Session) micGranted :
  let s' := ListenSession.startListening micGranted false s in
  status (BufferApp.state (ListenSession.app s')) = error
  ∧ isRecording (BufferApp.state (ListenSession.app s')) = false
  ∧ currentText (BufferApp.state (ListenSession.app s'))
    = currentText (BufferApp.state (ListenSession.app s))
  ∧ history (BufferApp.state (ListenSession.app s'))
    = history (BufferApp.state (ListenSession.app s))
  ∧ BufferApp.transcriptionBuffer (ListenSession.app s')
    = BufferApp.transcriptionBuffer (ListenSession.app s)
  ∧ ListenSession.streamRef s'
    = (if micGranted then true else ListenSession.streamRef s)
  ∧ ListenSession.audioContextRef s'
    = (if micGranted then true else ListenSession.audioContextRef s)
  ∧ ListenSession.streamRef (ListenSession.stopListening clock s') = false
  ∧ ListenSession.audioContextRef (ListenSession.stopListening clock s') = false.
Proof. simpl. unfold ListenSession.startListening. by destruct micGranted. Qed.

End MoreExtras.
